(** * Shallow embedding of rosdep_resolve_with_fixed_version.py

    Python [str] values are modelled as Stdlib [string] (characters are
    [ascii]; Python compares strings by code point, which for these
    characters is the [N] value compared by [String.compare]).
    A Python [dict] built by the program is modelled as an association list
    kept in insertion order, since the program iterates over it. *)

From Stdlib Require Import List String Ascii Bool ZArith Lia Sorted Permutation OrdersEx.
Import ListNotations.
Open Scope list_scope.
Open Scope string_scope.

(** ** Regular expressions of [parse_rosdep] *)

(** [prefix p s]: [s] starts with [p]. *)
Fixpoint starts_with (p s : string) : bool :=
  match p, s with
  | EmptyString, _ => true
  | String c p', String d s' => Ascii.eqb c d && starts_with p' s'
  | String _ _, EmptyString => false
  end.

Fixpoint drop_n (n : nat) (s : string) : string :=
  match n, s with
  | O, _ => s
  | S n', String _ s' => drop_n n' s'
  | S _, EmptyString => EmptyString
  end.

Definition head_marker : string := "#ROSDEP[".

(** Lazy [(.*?)\]]: the shortest run of non-newline characters followed by
    [']'] ([.] does not match a newline in Python's [re]). *)
Fixpoint lazy_group_to_bracket (s : string) : option string :=
  match s with
  | EmptyString => None
  | String c s' =>
      if Ascii.eqb c "]"%char then Some EmptyString
      else if Ascii.eqb c (ascii_of_nat 10) then None
      else option_map (String c) (lazy_group_to_bracket s')
  end.

(** [#ROSDEP\[(.*?)\]] anchored at the start of [s]. *)
Definition head_match_at (s : string) : option string :=
  if starts_with head_marker s
  then lazy_group_to_bracket (drop_n (String.length head_marker) s)
  else None.

(** [rosdep_head_pattern.search(line).group(1)]: leftmost match. *)
Fixpoint search_head (s : string) : option string :=
  match head_match_at s with
  | Some g => Some g
  | None =>
      match s with
      | EmptyString => None
      | String _ s' => search_head s'
      end
  end.

(** [#(apt|pip)] anchored at the start of [s]; the alternatives are tried
    left to right. *)
Definition method_match_at (s : string) : option string :=
  if starts_with "#apt" s then Some "apt"
  else if starts_with "#pip" s then Some "pip"
  else None.

(** [method_pattern.search(line).group(1)]. *)
Fixpoint search_method (s : string) : option string :=
  match method_match_at s with
  | Some g => Some g
  | None =>
      match s with
      | EmptyString => None
      | String _ s' => search_method s'
      end
  end.

(** [line.split(" ")]: split at every single space; [""] gives [[""]]. *)
Fixpoint split_space_acc (cur : string) (s : string) : list string :=
  match s with
  | EmptyString => [cur]
  | String c s' =>
      if Ascii.eqb c " "%char then cur :: split_space_acc EmptyString s'
      else split_space_acc (cur ++ String c EmptyString) s'
  end.

Definition split_space (s : string) : list string := split_space_acc EmptyString s.

(** ** [RosdepResolvedPackageInfo] *)

Record RosdepResolvedPackageInfo := mkInfo {
  ros_pkg_name : string;
  method : string;
  resolved_names : list string;
  target_versions : list string
}.

Definition new_info (k : string) : RosdepResolvedPackageInfo :=
  mkInfo k "" [] [].

Definition set_method (m : string) (p : RosdepResolvedPackageInfo) :=
  mkInfo (ros_pkg_name p) m (resolved_names p) (target_versions p).

Definition set_resolved_names (ns : list string) (p : RosdepResolvedPackageInfo) :=
  mkInfo (ros_pkg_name p) (method p) ns (target_versions p).

Definition append_target_version (v : string) (p : RosdepResolvedPackageInfo) :=
  mkInfo (ros_pkg_name p) (method p) (resolved_names p) (target_versions p ++ [v])%list.

(** ** [parse_rosdep] *)

Inductive result (A : Type) :=
| Ok : A -> result A
| Err : string -> result A.
Arguments Ok {A} _.
Arguments Err {A} _.

Definition err_method_first : string :=
  "Error: Method found before package name in rosdep result".
Definition err_names_first : string :=
  "Error: resolved package name found before package name in rosdep result".

(** [package_info_list[-1] = f(package_info_list[-1])] *)
Fixpoint update_last {A} (f : A -> A) (l : list A) : list A :=
  match l with
  | [] => []
  | [x] => [f x]
  | x :: l' => x :: update_last f l'
  end.

(** The forward pass over [lines], threading [package_info_list]. *)
Fixpoint parse_lines (acc : list RosdepResolvedPackageInfo) (lines : list string)
  : result (list RosdepResolvedPackageInfo) :=
  match lines with
  | [] => Ok acc
  | line :: rest =>
      match search_head line with
      | Some k => parse_lines (acc ++ [new_info k])%list rest
      | None =>
          match search_method line with
          | Some m =>
              match acc with
              | [] => Err err_method_first
              | _ => parse_lines (update_last (set_method m) acc) rest
              end
          | None =>
              match acc with
              | [] => Err err_names_first
              | _ => parse_lines (update_last (set_resolved_names (split_space line)) acc) rest
              end
          end
      end
  end.

(** Python dict assignment [d[k] = v]: an existing key keeps its position
    and gets the new value; a new key goes at the end. *)
Fixpoint dict_set {V} (k : string) (v : V) (d : list (string * V)) : list (string * V) :=
  match d with
  | [] => [(k, v)]
  | (k', v') :: d' =>
      if String.eqb k k' then (k, v) :: d' else (k', v') :: dict_set k v d'
  end.

(** [{package.ros_pkg_name: package for package in package_info_list}] *)
Definition dict_of_infos (l : list RosdepResolvedPackageInfo)
  : list (string * RosdepResolvedPackageInfo) :=
  fold_left (fun d p => dict_set (ros_pkg_name p) p d) l [].

(** [sorted(d.items())]; the keys of a dict are distinct, so the items are
    ordered by their keys alone. *)
Fixpoint insert_item {V} (x : string * V) (l : list (string * V)) : list (string * V) :=
  match l with
  | [] => [x]
  | y :: l' => if String.leb (fst x) (fst y) then x :: l else y :: insert_item x l'
  end.

Fixpoint sort_items {V} (l : list (string * V)) : list (string * V) :=
  match l with
  | [] => []
  | x :: l' => insert_item x (sort_items l')
  end.

Definition parse_rosdep (lines : list string)
  : result (list (string * RosdepResolvedPackageInfo)) :=
  match parse_lines [] lines with
  | Ok l => Ok (sort_items (dict_of_infos l))
  | Err e => Err e
  end.

(** ** [extract_fixed_version_depend_from_package_xml] *)

(** An XML element as [ElementTree] gives it: its tag, its text ([None] when
    the element has no text) and its attribute dict. *)
Record element := mkElem {
  tag : string;
  text : option string;
  attrib : list (string * string)
}.

Definition dependency_tags : list string :=
  ["build_depend"; "build_export_depend"; "buildtool_depend";
   "buildtool_export_depend"; "exec_depend"; "depend"; "doc_depend"; "test_depend"].

Definition supported_version_attributes : list string := ["version_eq"].

Definition unsupported_version_attributes : list string :=
  ["version_gte"; "version_gt"; "version_lte"; "version_lt"].

Fixpoint lookup {K V} (eqb : K -> K -> bool) (k : K) (d : list (K * V)) : option V :=
  match d with
  | [] => None
  | (k', v) :: d' => if eqb k k' then Some v else lookup eqb k d'
  end.

Definition opt_string_eqb (a b : option string) : bool :=
  match a, b with
  | Some x, Some y => String.eqb x y
  | None, None => true
  | _, _ => false
  end.

(** [root.findall(tag)]: the direct children of the root with that tag, in
    document order. *)
Definition findall (t : string) (children : list element) : list element :=
  filter (fun e => String.eqb (tag e) t) children.

(** The elements in the order the nested [for tag ...: for dep ...] loops
    visit them. *)
Definition scan_order (children : list element) : list element :=
  flat_map (fun t => findall t children) dependency_tags.

(** f-string rendering of [dep.text]. *)
Definition show_text (t : option string) : string :=
  match t with Some s => s | None => "None" end.

Definition duplicate_msg (old new : string) (t : option string) (path : string) : string :=
  "ERROR: Duplicated dependency version found (" ++ old ++ " and " ++ new ++
  "): " ++ show_text t ++ " in package " ++ path.

(** One element of the scan; the warning loop over
    [unsupported_version_attributes] only prints and leaves
    [dependencies] unchanged, so it is not modelled. *)
Definition extract_step (path : string) (deps : list (option string * string))
    (dep : element) : result (list (option string * string)) :=
  fold_left
    (fun acc attr =>
       match acc with
       | Err e => Err e
       | Ok d =>
           match lookup String.eqb attr (attrib dep) with
           | None => Ok d
           | Some v =>
               match lookup opt_string_eqb (text dep) d with
               | Some old => Err (duplicate_msg old v (text dep) path)
               | None => Ok (d ++ [(text dep, v)])%list
               end
           end
       end)
    supported_version_attributes (Ok deps).

Fixpoint extract_elems (path : string) (deps : list (option string * string))
    (es : list element) : result (list (option string * string)) :=
  match es with
  | [] => Ok deps
  | e :: es' =>
      match extract_step path deps e with
      | Ok d => extract_elems path d es'
      | Err m => Err m
      end
  end.

Definition extract_fixed_version_depend_from_package_xml (path : string)
    (children : list element) : result (list (option string * string)) :=
  extract_elems path [] (scan_order children).

(** ** Merge step of [main] *)

Definition has_key {V} (k : string) (d : list (string * V)) : bool :=
  existsb (fun kv => String.eqb (fst kv) k) d.

(** [resolved_package_list[key].target_versions.append(value)] *)
Definition append_at (k v : string) (m : list (string * RosdepResolvedPackageInfo)) :=
  map (fun kp => if String.eqb (fst kp) k
                 then (fst kp, append_target_version v (snd kp)) else kp) m.

(** One iteration of [for key, value in fixed_version_depends.items()]. *)
Definition merge_step (m : list (string * RosdepResolvedPackageInfo))
    (kv : option string * string) : list (string * RosdepResolvedPackageInfo) :=
  match fst kv with
  | Some k => if has_key k m then append_at k (snd kv) m else m
  | None => m
  end.

Definition merge_fixed (m : list (string * RosdepResolvedPackageInfo))
    (fixed : list (option string * string)) :=
  fold_left merge_step fixed m.

(** ** Emission of [main] *)

Definition nl : string := String (ascii_of_nat 10) EmptyString.

Definition multiple_msg (k : string) : string :=
  "Error: Multiple target versions found for apt package " ++ k.

(** The [text] built for one package, or [None] when the package has more
    than one target version. [sep] is ["="] for apt and ["=="] for pip. *)
Definition package_text (sep : string) (p : RosdepResolvedPackageInfo) : option string :=
  match target_versions p with
  | [] => Some (concat "" (map (fun item => item ++ nl) (resolved_names p)))
  | [v] => Some (concat "" (map (fun item => item ++ sep ++ v ++ nl) (resolved_names p)))
  | _ => None
  end.

(** Outcome of writing one file: its full contents, or the contents written
    before the [RuntimeError] together with the error message. *)
Inductive file_outcome :=
| Written : string -> file_outcome
| Aborted : string -> string -> file_outcome.

Fixpoint emit_file_acc (meth sep : string) (written : string)
    (m : list (string * RosdepResolvedPackageInfo)) : file_outcome :=
  match m with
  | [] => Written written
  | (_, p) :: m' =>
      if String.eqb (method p) meth then
        match package_text sep p with
        | Some t => emit_file_acc meth sep (written ++ t) m'
        | None => Aborted written (multiple_msg (ros_pkg_name p))
        end
      else emit_file_acc meth sep written m'
  end.

Definition emit_file (meth sep : string) (m : list (string * RosdepResolvedPackageInfo)) :=
  emit_file_acc meth sep "" m.

(** Final state of the emission: contents of the apt and pip files ([None]
    when the file is not opened) and the fatal error, if any. *)
Record emit_outcome := mkOutcome {
  apt_file : option string;
  pip_file : option string;
  fatal : option string
}.

Definition emit_outputs (output_apt output_pip : string)
    (m : list (string * RosdepResolvedPackageInfo)) : emit_outcome :=
  let apt_part :=
    if String.eqb output_apt "" then (None, None)
    else match emit_file "apt" "=" m with
         | Written t => (Some t, None)
         | Aborted t e => (Some t, Some e)
         end in
  match snd apt_part with
  | Some e => mkOutcome (fst apt_part) None (Some e)
  | None =>
      if String.eqb output_pip "" then mkOutcome (fst apt_part) None None
      else match emit_file "pip" "==" m with
           | Written t => mkOutcome (fst apt_part) (Some t) None
           | Aborted t e => mkOutcome (fst apt_part) (Some t) (Some e)
           end
  end.

(** ** The [--dependency-types] option *)

Definition dependency_type_choices : list string :=
  ["build"; "buildtool"; "build_export"; "buildtool_export"; "exec"; "test"; "doc"].

(** [optparse] checks every value of a [choices] option when it is parsed
    ([check_choice]), before [parse_args] returns; the message also lists
    the choices, in the iteration order of a Python set, which is left out. *)
Fixpoint optparse_check_choices (vals : list string) : result (list string) :=
  match vals with
  | [] => Ok []
  | v :: vs =>
      if existsb (String.eqb v) dependency_type_choices then
        match optparse_check_choices vs with
        | Ok l => Ok (v :: l)
        | Err e => Err e
        end
      else Err ("option --dependency-types: invalid choice: '" ++ v ++ "'")
  end.

(** [options.dependency_types = [dep for s in ... for dep in s.split(" ")]]
    after [parser.parse_args(args)]. *)
Definition parse_dependency_types (vals : list string) : result (list string) :=
  match optparse_check_choices vals with
  | Ok l => Ok (flat_map split_space l)
  | Err e => Err e
  end.

(** ** Invoking rosdep: [run_rosdep_key] and [rosdep_key_and_resolve] *)

(** [str.split(sep)] for a one-character separator. *)
Fixpoint split_on_acc (sep : ascii) (cur : string) (s : string) : list string :=
  match s with
  | EmptyString => [cur]
  | String c s' =>
      if Ascii.eqb c sep then cur :: split_on_acc sep EmptyString s'
      else split_on_acc sep (cur ++ String c EmptyString) s'
  end.

Definition split_on (sep : ascii) (s : string) : list string := split_on_acc sep EmptyString s.

(** The characters [str.strip()] removes ([str.isspace()]) among code
    points below 256. *)
Definition is_py_space (c : ascii) : bool :=
  let n := nat_of_ascii c in
  (Nat.leb 9 n && Nat.leb n 13) || (Nat.leb 28 n && Nat.leb n 32) ||
  Nat.eqb n 133 || Nat.eqb n 160.

(** [line.strip() == ""] *)
Fixpoint is_blank (s : string) : bool :=
  match s with
  | EmptyString => true
  | String c s' => is_py_space c && is_blank s'
  end.

(** [[line for line in stdout.split("\n") if line.strip() != ""]] *)
Definition nonblank_lines (stdout : string) : list string :=
  filter (fun l => negb (is_blank l)) (split_on (ascii_of_nat 10) stdout).

(** What [subprocess.run(..., shell=True, capture_output=True, text=True)]
    returns. *)
Record proc_result := mkProc {
  returncode : Z;
  stdout : string;
  stderr : string
}.

Definition dq : string := String (ascii_of_nat 34) EmptyString.

Definition dependency_str (dependency_types : list string) : string :=
  concat "" (map (fun t => "--dependency-types " ++ t ++ " ") dependency_types).

Definition keys_command (path : string) (dependency_types : list string)
    (contain_src : bool) : string :=
  concat " " ["rosdep"; "keys"; if negb contain_src then "--ignore-src" else "";
              "--from-paths"; dq ++ path ++ dq; dependency_str dependency_types].

Definition resolve_command (distro key : string) : string :=
  concat " " ["rosdep"; "resolve"; "--rosdistro"; distro; key].

(** [rosdep_packages] is only bound when the command succeeds; [return]
    then raises [UnboundLocalError]. *)
Definition unbound_msg : string :=
  "UnboundLocalError: local variable 'rosdep_packages' referenced before assignment".

Definition ros_distro_msg : string := "KeyError: 'ROS_DISTRO'".

Definition header_line (k : string) : string := "#ROSDEP[" ++ k ++ "]".

Section Invoker.
(** The shell: the result of running a command line. *)
Variable run : string -> proc_result.
(** [os.environ.get("ROS_DISTRO")]. *)
Variable ros_distro : option string.

Definition run_rosdep_key (path : string) (dependency_types : list string)
    (contain_src : bool) : result (list string) :=
  let r := run (keys_command path dependency_types contain_src) in
  if Z.eqb (returncode r) 0 then Ok (nonblank_lines (stdout r)) else Err unbound_msg.

(** The loop over [rosdep_packages]; [os.environ["ROS_DISTRO"]] is read
    when the command of each package is built. *)
Fixpoint resolve_all (pkgs : list string) (lines : list string) : result (list string) :=
  match pkgs with
  | [] => Ok lines
  | k :: ks =>
      match ros_distro with
      | None => Err ros_distro_msg
      | Some d =>
          let r := run (resolve_command d k) in
          if negb (Z.eqb (returncode r) 0) then resolve_all ks lines
          else resolve_all ks (lines ++ header_line k :: nonblank_lines (stdout r))%list
      end
  end.

Definition rosdep_key_and_resolve (path : string) (dependency_types : list string)
    (contain_src : bool) : result (list string) :=
  match run_rosdep_key path dependency_types contain_src with
  | Ok pkgs => resolve_all pkgs []
  | Err e => Err e
  end.

End Invoker.

(** ** [main] *)

(** The options after [parser.parse_args]; [dependency_types] holds the
    raw values given to [--dependency-types]. *)
Record options := mkOptions {
  fixed_package_xml : string;
  from_paths : string;
  output_apt : string;
  output_pip : string;
  contain_src : bool;
  dependency_types : list string
}.

Section Main.
Variable run : string -> proc_result.
Variable ros_distro : option string.
(** [ET.parse(path).getroot()]: the children of the root element, or the
    error [ET.parse] raises. *)
Variable read_package_xml : string -> result (list element).

(** [main] up to the writing of the files; an exception raised before the
    files are opened is an [Err]. The [print] calls are not modelled. *)
Definition main (opts : options) : result emit_outcome :=
  match parse_dependency_types (dependency_types opts) with
  | Err e => Err e
  | Ok types =>
      match rosdep_key_and_resolve run ros_distro (from_paths opts) types (contain_src opts) with
      | Err e => Err e
      | Ok lines =>
          match parse_rosdep lines with
          | Err e => Err e
          | Ok m =>
              let merged :=
                if String.eqb (fixed_package_xml opts) "" then Ok m
                else match read_package_xml (fixed_package_xml opts) with
                     | Err e => Err e
                     | Ok children =>
                         match extract_fixed_version_depend_from_package_xml
                                 (fixed_package_xml opts) children with
                         | Err e => Err e
                         | Ok fixed => Ok (merge_fixed m fixed)
                         end
                     end in
              match merged with
              | Err e => Err e
              | Ok m' => Ok (emit_outputs (output_apt opts) (output_pip opts) m')
              end
          end
      end
  end.

End Main.

Example parse_rosdep_ex :
  parse_rosdep ["#ROSDEP[foo]"; "#apt"; "libfoo1 libfoo2"; "#ROSDEP[bar]"; "#pip"; "pybar"]
  = Ok [("bar", mkInfo "bar" "pip" ["pybar"] []);
        ("foo", mkInfo "foo" "apt" ["libfoo1"; "libfoo2"] [])].
Proof. reflexivity. Qed.

Example end_to_end_unpinned :
  match parse_rosdep ["#ROSDEP[foo]"; "#apt"; "libfoo1 libfoo2"] with
  | Ok m => apt_file (emit_outputs "out.txt" "" m)
  | Err _ => None
  end = Some ("libfoo1" ++ nl ++ "libfoo2" ++ nl).
Proof. reflexivity. Qed.

Example end_to_end_pinned :
  match parse_rosdep ["#ROSDEP[foo]"; "#apt"; "libfoo1 libfoo2"] with
  | Ok m => apt_file (emit_outputs "out.txt" "" (merge_fixed m [(Some "foo", "2.0")]))
  | Err _ => None
  end = Some ("libfoo1=2.0" ++ nl ++ "libfoo2=2.0" ++ nl).
Proof. reflexivity. Qed.

Example extract_ex :
  extract_fixed_version_depend_from_package_xml "package.xml"
    [mkElem "depend" (Some "foo") [("version_eq", "1.2.3")];
     mkElem "exec_depend" (Some "bar") [("version_gte", "1.0")]]
  = Ok [(Some "foo", "1.2.3")].
Proof. reflexivity. Qed.

Example split_space_ex : split_space "a  b" = ["a"; ""; "b"].
Proof. reflexivity. Qed.

(** * Properties *)

Open Scope list_scope.

(** ** Lexicographic order on keys *)

Definition key_lt (a b : string) : Prop := String.compare a b = Lt.

Lemma string_compare_as_OT (a b : string) :
  String.compare a b = String_as_OT.compare a b.
Proof.
  revert b; induction a as [|c a IH]; destruct b as [|d b]; simpl; auto.
Qed.

Lemma key_lt_trans (a b c : string) : key_lt a b -> key_lt b c -> key_lt a c.
Proof.
  unfold key_lt; rewrite !string_compare_as_OT.
  intros H1 H2. exact (RelationClasses.StrictOrder_Transitive (R := String_as_OT.lt) a b c H1 H2).
Qed.

Lemma string_compare_refl (a : string) : String.compare a a = Eq.
Proof.
  rewrite string_compare_as_OT.
  destruct (String_as_OT.compare_spec a a) as [|H|H]; auto;
    exfalso; exact (RelationClasses.StrictOrder_Irreflexive (R := String_as_OT.lt) a H).
Qed.

Lemma string_leb_trans (a b c : string) :
  String.leb a b = true -> String.leb b c = true -> String.leb a c = true.
Proof.
  unfold String.leb.
  destruct (String.compare a b) eqn:Hab; try discriminate;
  destruct (String.compare b c) eqn:Hbc; try discriminate; intros _ _.
  - apply String.compare_eq_iff in Hab. apply String.compare_eq_iff in Hbc.
    subst. now rewrite string_compare_refl.
  - apply String.compare_eq_iff in Hab; subst. now rewrite Hbc.
  - apply String.compare_eq_iff in Hbc; subst. now rewrite Hab.
  - now rewrite (key_lt_trans a b c Hab Hbc).
Qed.

Lemma string_leb_neq_lt (a b : string) :
  String.leb a b = true -> a <> b -> key_lt a b.
Proof.
  unfold String.leb, key_lt. destruct (String.compare a b) eqn:H; try discriminate; auto.
  intros _ Hne. apply String.compare_eq_iff in H. contradiction.
Qed.

Lemma string_leb_false (a b : string) : String.leb a b = false -> String.leb b a = true.
Proof.
  intros Hf. destruct (String.leb_total a b) as [H|H]; [congruence | exact H].
Qed.

(** ** [sort_items] *)

Section SortItems.
Context {V : Type}.
Implicit Types (x : string * V) (l : list (string * V)).

Definition item_le (x y : string * V) : Prop := String.leb (fst x) (fst y) = true.

Lemma insert_item_perm x l : Permutation (insert_item x l) (x :: l).
Proof.
  induction l as [|y l IH]; simpl; [auto|].
  destruct (String.leb (fst x) (fst y)); [auto|].
  eapply perm_trans; [apply perm_skip, IH | apply perm_swap].
Qed.

Lemma sort_items_perm l : Permutation (sort_items l) l.
Proof.
  induction l as [|x l IH]; simpl; [auto|].
  eapply perm_trans; [apply insert_item_perm | now apply perm_skip].
Qed.

Lemma insert_item_sorted x l :
  StronglySorted item_le l -> StronglySorted item_le (insert_item x l).
Proof.
  induction l as [|y l IH]; simpl; intros Hs.
  - repeat constructor.
  - inversion Hs as [|? ? Hs' Hall]; subst.
    destruct (String.leb (fst x) (fst y)) eqn:Hxy.
    + constructor; [exact Hs|]. constructor; [exact Hxy|].
      eapply Forall_impl; [|exact Hall]. intros z Hz. exact (string_leb_trans _ _ _ Hxy Hz).
    + constructor; [now apply IH|].
      eapply Permutation_Forall; [apply Permutation_sym, insert_item_perm|].
      constructor; [exact (string_leb_false _ _ Hxy) | exact Hall].
Qed.

Lemma sort_items_sorted l : StronglySorted item_le (sort_items l).
Proof.
  induction l; simpl; [constructor | now apply insert_item_sorted].
Qed.

End SortItems.

Lemma strongly_sorted_keys_strict {V} (l : list (string * V)) :
  StronglySorted item_le l -> NoDup (map fst l) -> StronglySorted key_lt (map fst l).
Proof.
  induction l as [|x l IH]; simpl; intros Hs Hnd; [constructor|].
  inversion Hs as [|? ? Hs' Hall]; subst. inversion Hnd as [|? ? Hnin Hnd']; subst.
  constructor; [now apply IH|].
  apply Forall_forall. intros k Hk. apply in_map_iff in Hk as [y [<- Hy]].
  apply string_leb_neq_lt.
  - exact (proj1 (Forall_forall _ _) Hall y Hy).
  - intros He. apply Hnin. rewrite He. now apply in_map.
Qed.

(** ** The forward pass of [parse_rosdep] *)

(** The keys of the [#ROSDEP[...]] header lines, in input order. *)
Definition header_keys (lines : list string) : list string :=
  flat_map (fun l => match search_head l with Some k => [k] | None => [] end) lines.

(** Every header line precedes the method and names lines of its block:
    no method or names line comes before the first header. *)
Definition well_formed (lines : list string) : Prop :=
  match lines with
  | [] => True
  | l :: _ => search_head l <> None
  end.

Lemma update_last_map {A B} (f : A -> A) (g : A -> B) (l : list A) :
  (forall x, g (f x) = g x) -> map g (update_last f l) = map g l.
Proof.
  intros Hg. induction l as [|x l IH]; [reflexivity|].
  destruct l as [|y l]; simpl; [now rewrite Hg|].
  simpl in IH. now rewrite IH.
Qed.

Lemma update_last_nil {A} (f : A -> A) (l : list A) : update_last f l = [] -> l = [].
Proof. destruct l as [|x [|y l]]; simpl; congruence. Qed.

Lemma parse_lines_ok acc lines :
  acc <> [] ->
  exists r, parse_lines acc lines = Ok r /\
            map ros_pkg_name r = (map ros_pkg_name acc ++ header_keys lines)%list.
Proof.
  revert acc; induction lines as [|l lines IH]; intros acc Hne; simpl.
  - exists acc. now rewrite app_nil_r.
  - destruct (search_head l) as [k|] eqn:Hh.
    + destruct (IH (acc ++ [new_info k])%list) as [r [Hr Hn]].
      { intros He. apply app_eq_nil in He as [_ He]. discriminate. }
      exists r. split; [exact Hr|]. rewrite Hn, map_app, <- app_assoc. reflexivity.
    + destruct (search_method l) as [m|];
        (destruct acc as [|p acc']; [congruence|]);
        match goal with
        | |- exists r, parse_lines (update_last ?f ?a) _ = _ /\ _ =>
            destruct (IH (update_last f a)) as [r [Hr Hn]];
            [ intros He; apply update_last_nil in He; discriminate
            | exists r; split; [exact Hr|];
              rewrite Hn, update_last_map by reflexivity; reflexivity ]
        end.
Qed.

Lemma parse_lines_wf lines :
  well_formed lines ->
  exists r, parse_lines [] lines = Ok r /\ map ros_pkg_name r = header_keys lines.
Proof.
  destruct lines as [|l lines]; simpl; intros Hwf.
  - now exists [].
  - destruct (search_head l) as [k|] eqn:Hh; [|congruence].
    destruct (parse_lines_ok [new_info k] lines) as [r [Hr Hn]]; [discriminate|].
    exists r. split; [exact Hr|]. exact Hn.
Qed.

(** ** Building the dict *)

Section DictSet.
Context {V : Type}.

Lemma dict_set_keys (k : string) (v : V) d k' :
  In k' (map fst (dict_set k v d)) <-> k' = k \/ In k' (map fst d).
Proof.
  induction d as [|[k0 v0] d IH]; simpl; [intuition congruence|].
  destruct (String.eqb k k0) eqn:He; simpl.
  - apply String.eqb_eq in He; subst. intuition congruence.
  - rewrite IH. intuition congruence.
Qed.

Lemma dict_set_nodup (k : string) (v : V) d :
  NoDup (map fst d) -> NoDup (map fst (dict_set k v d)).
Proof.
  induction d as [|[k0 v0] d IH]; simpl; intros Hnd.
  - repeat constructor. auto.
  - inversion Hnd as [|? ? Hnin Hnd']; subst.
    destruct (String.eqb k k0) eqn:He; simpl.
    + apply String.eqb_eq in He; subst. now constructor.
    + constructor; [|now apply IH].
      rewrite dict_set_keys. intros [H|H]; [|contradiction].
      subst. rewrite String.eqb_refl in He. discriminate.
Qed.

Lemma dict_set_lookup (k : string) (v : V) d k' :
  lookup String.eqb k' (dict_set k v d) =
  if String.eqb k' k then Some v else lookup String.eqb k' d.
Proof.
  induction d as [|[k0 v0] d IH]; simpl.
  - reflexivity.
  - destruct (String.eqb k k0) eqn:He; simpl.
    + apply String.eqb_eq in He; subst. now destruct (String.eqb k' k0).
    + rewrite IH. destruct (String.eqb k' k) eqn:H1, (String.eqb k' k0) eqn:H2; auto.
      apply String.eqb_eq in H1, H2; subst. rewrite String.eqb_refl in He. discriminate.
Qed.

End DictSet.

Lemma dict_of_infos_fold l d :
  NoDup (map fst d) ->
  NoDup (map fst (fold_left (fun d p => dict_set (ros_pkg_name p) p d) l d)) /\
  (forall k, In k (map fst (fold_left (fun d p => dict_set (ros_pkg_name p) p d) l d))
             <-> In k (map fst d) \/ In k (map ros_pkg_name l)).
Proof.
  revert d; induction l as [|p l IH]; simpl; intros d Hnd.
  - split; [exact Hnd|]. tauto.
  - destruct (IH (dict_set (ros_pkg_name p) p d)) as [H1 H2]; [now apply dict_set_nodup|].
    split; [exact H1|]. intros k. rewrite H2, dict_set_keys. intuition congruence.
Qed.

Lemma dict_of_infos_keys l :
  NoDup (map fst (dict_of_infos l)) /\
  (forall k, In k (map fst (dict_of_infos l)) <-> In k (map ros_pkg_name l)).
Proof.
  destruct (dict_of_infos_fold l []) as [H1 H2]; [constructor|].
  split; [exact H1|]. intros k. unfold dict_of_infos. rewrite H2. simpl. tauto.
Qed.

(** ** Claims on [parse_rosdep] *)

(** C1: on well-formed resolver output [parse_rosdep] returns a mapping
    whose keys are exactly the distinct keys of the [#ROSDEP[...]] header
    lines, listed in strictly ascending lexicographic order. *)
Theorem parse_rosdep_keys_sorted (lines : list string) :
  well_formed lines ->
  exists m, parse_rosdep lines = Ok m /\
    (forall k, In k (map fst m) <-> exists l, In l lines /\ search_head l = Some k) /\
    StronglySorted key_lt (map fst m).
Proof.
  intros Hwf. destruct (parse_lines_wf lines Hwf) as [r [Hr Hn]].
  unfold parse_rosdep. rewrite Hr.
  destruct (dict_of_infos_keys r) as [Hnd Hk].
  pose proof (sort_items_perm (dict_of_infos r)) as Hp.
  eexists; split; [reflexivity|]. split.
  - intros k.
    assert (Hpk : In k (map fst (sort_items (dict_of_infos r))) <->
                  In k (map fst (dict_of_infos r))).
    { pose proof (Permutation_map fst Hp) as Hpm.
      split; apply Permutation_in; [exact Hpm | apply Permutation_sym; exact Hpm]. }
    rewrite Hpk, Hk, Hn.
    unfold header_keys. rewrite in_flat_map. split.
    + intros [l [Hl Hin]]. exists l. split; [exact Hl|].
      destruct (search_head l); simpl in Hin; [|contradiction].
      destruct Hin as [<-|[]]; reflexivity.
    + intros [l [Hl Hs]]. exists l. split; [exact Hl|]. rewrite Hs. now left.
  - apply strongly_sorted_keys_strict; [apply sort_items_sorted|].
    eapply Permutation_NoDup; [apply Permutation_sym, Permutation_map, Hp | exact Hnd].
Qed.

Lemma parse_rosdep_keys_sorted_witness :
  well_formed ["#ROSDEP[foo]"; "#apt"; "libfoo1"; "#ROSDEP[bar]"; "#pip"; "pybar"] /\
  exists m, parse_rosdep ["#ROSDEP[foo]"; "#apt"; "libfoo1"; "#ROSDEP[bar]"; "#pip"; "pybar"] = Ok m /\
    (forall k, In k (map fst m) <->
       exists l, In l ["#ROSDEP[foo]"; "#apt"; "libfoo1"; "#ROSDEP[bar]"; "#pip"; "pybar"]
                 /\ search_head l = Some k) /\
    StronglySorted key_lt (map fst m).
Proof.
  split; [simpl; discriminate|].
  apply parse_rosdep_keys_sorted. simpl. discriminate.
Defined.

(** ** One block of resolver output *)

(** The markers of the method lines of a block, in order. *)
Definition block_methods (b : list string) : list string :=
  flat_map (fun l => match search_method l with Some m => [m] | None => [] end) b.

(** The names lines of a block (neither header nor method lines). *)
Definition block_names_lines (b : list string) : list string :=
  filter (fun l => match search_method l with Some _ => false | None => true end) b.

Definition last_opt {A} (l : list A) : option A := last (map Some l) None.

(** The entry of a block once the block is processed. *)
Definition block_entry (b : list string) (e : RosdepResolvedPackageInfo) :=
  mkInfo (ros_pkg_name e)
         (last (block_methods b) (method e))
         (match last_opt (block_names_lines b) with
          | Some l => split_space l
          | None => resolved_names e
          end)
         (target_versions e).

Lemma last_cons_default {A} (x d : A) (l : list A) : last (x :: l) d = last l x.
Proof.
  revert x d; induction l as [|y l IH]; intros x d; [reflexivity|].
  change (last (x :: y :: l) d) with (last (y :: l) d). rewrite !IH. reflexivity.
Qed.

Lemma last_opt_cons {A} (x : A) (l : list A) :
  last_opt (x :: l) = match last_opt l with Some y => Some y | None => Some x end.
Proof.
  unfold last_opt. simpl map. rewrite last_cons_default.
  induction l as [|y l IH]; [reflexivity|].
  simpl map. rewrite !last_cons_default.
  destruct l as [|z l]; [reflexivity|].
  simpl map in *. rewrite !last_cons_default in *. exact IH.
Qed.

Lemma update_last_snoc {A} (f : A -> A) (acc : list A) (x : A) :
  update_last f (acc ++ [x]) = acc ++ [f x].
Proof.
  induction acc as [|y acc IH]; [reflexivity|].
  simpl. rewrite IH. destruct acc; reflexivity.
Qed.

Lemma snoc_not_nil {A} (acc : list A) (x : A) : (acc ++ [x])%list <> [].
Proof. intros H. apply app_eq_nil in H as [_ H]. discriminate. Qed.

Lemma parse_lines_block acc e b rest :
  Forall (fun l => search_head l = None) b ->
  parse_lines (acc ++ [e]) (b ++ rest) = parse_lines (acc ++ [block_entry b e]) rest.
Proof.
  revert e; induction b as [|l b IH]; intros e Hb.
  - destruct e; reflexivity.
  - inversion Hb as [|? ? Hl Hb']; subst. simpl.
    rewrite Hl.
    destruct (acc ++ [e])%list eqn:Hae; [exfalso; exact (snoc_not_nil acc e Hae)|].
    rewrite <- Hae. clear Hae.
    destruct (search_method l) as [m|] eqn:Hm.
    + rewrite update_last_snoc, IH by exact Hb'. f_equal. f_equal. f_equal.
      unfold block_entry, block_methods, block_names_lines. cbn [flat_map filter].
      rewrite Hm. cbn [app ros_pkg_name method resolved_names target_versions set_method].
      rewrite last_cons_default. reflexivity.
    + rewrite update_last_snoc, IH by exact Hb'. f_equal. f_equal. f_equal.
      unfold block_entry, block_methods, block_names_lines. cbn [flat_map filter].
      rewrite Hm. cbn [app ros_pkg_name method resolved_names target_versions set_resolved_names].
      rewrite last_opt_cons. destruct (last_opt _); reflexivity.
Qed.

Lemma parse_lines_app acc l1 l2 :
  parse_lines acc (l1 ++ l2) =
  match parse_lines acc l1 with Ok r => parse_lines r l2 | Err e => Err e end.
Proof.
  revert acc; induction l1 as [|l l1 IH]; intros acc; [reflexivity|].
  simpl. destruct (search_head l); [apply IH|].
  destruct (search_method l); destruct acc; try reflexivity; apply IH.
Qed.

(** The pass only ever changes the last entry of [package_info_list]. *)
Lemma parse_lines_extends acc x t r :
  parse_lines (acc ++ [x]) t = Ok r -> exists s, r = acc ++ s.
Proof.
  revert acc x; induction t as [|l t IH]; intros acc x Hp; simpl in Hp.
  - injection Hp as <-. now exists [x].
  - destruct (search_head l) as [k|].
    + rewrite <- app_assoc in Hp. simpl in Hp.
      change (x :: [new_info k]) with ([x] ++ [new_info k]) in Hp.
      rewrite app_assoc in Hp.
      destruct (IH (acc ++ [x]) (new_info k) Hp) as [s ->].
      exists (x :: s). rewrite <- app_assoc. reflexivity.
    + destruct (acc ++ [x]) eqn:Hae; [exfalso; exact (snoc_not_nil acc x Hae)|].
      rewrite <- Hae in Hp.
      destruct (search_method l); rewrite update_last_snoc in Hp; eapply IH; exact Hp.
Qed.

Lemma parse_lines_after_block acc x post :
  well_formed post ->
  exists s, parse_lines (acc ++ [x]) post = Ok (acc ++ x :: s) /\
            map ros_pkg_name s = header_keys post.
Proof.
  intros Hwf.
  destruct (parse_lines_ok (acc ++ [x]) post (snoc_not_nil acc x)) as [r [Hr Hn]].
  destruct post as [|h t].
  - simpl in Hr. injection Hr as <-. exists []. now split.
  - simpl in Hwf. pose proof Hr as Hr'. simpl in Hr'.
    destruct (search_head h) as [k|]; [|congruence].
    destruct (parse_lines_extends (acc ++ [x]) (new_info k) t r Hr') as [s ->].
    exists s. rewrite <- app_assoc in Hr. split; [exact Hr|].
    rewrite !map_app in Hn. rewrite <- !app_assoc in Hn.
    apply app_inv_head in Hn. apply app_inv_head in Hn. exact Hn.
Qed.

Lemma dict_fold_lookup_other k s d :
  ~ In k (map ros_pkg_name s) ->
  lookup String.eqb k (fold_left (fun d p => dict_set (ros_pkg_name p) p d) s d) =
  lookup String.eqb k d.
Proof.
  revert d; induction s as [|p s IH]; intros d Hn; [reflexivity|].
  simpl in *. rewrite IH by tauto. rewrite dict_set_lookup.
  destruct (String.eqb k (ros_pkg_name p)) eqn:He; [|reflexivity].
  apply String.eqb_eq in He. exfalso. apply Hn. left. now symmetry.
Qed.

Lemma lookup_in {V} k (v : V) d :
  NoDup (map fst d) -> lookup String.eqb k d = Some v <-> In (k, v) d.
Proof.
  induction d as [|[k0 v0] d IH]; simpl; intros Hnd; [split; [discriminate|tauto]|].
  inversion Hnd as [|? ? Hnin Hnd']; subst.
  destruct (String.eqb k k0) eqn:He.
  - apply String.eqb_eq in He; subst. split.
    + intros H; injection H as <-. now left.
    + intros [H|H]; [now injection H as <-|].
      exfalso. apply Hnin. change k0 with (fst (k0, v)). now apply in_map.
  - rewrite IH by exact Hnd'. split; [tauto|].
    intros [H|H]; [|exact H]. injection H as -> ->. rewrite String.eqb_refl in He. discriminate.
Qed.

Lemma lookup_perm {V} k (d d' : list (string * V)) :
  Permutation d d' -> NoDup (map fst d) ->
  lookup String.eqb k d = lookup String.eqb k d'.
Proof.
  intros Hp Hnd.
  assert (Hnd' : NoDup (map fst d')) by (eapply Permutation_NoDup; [apply Permutation_map, Hp | exact Hnd]).
  destruct (lookup String.eqb k d) as [v|] eqn:H1, (lookup String.eqb k d') as [v'|] eqn:H2; auto.
  - apply (lookup_in k v d Hnd) in H1.
    apply (Permutation_in _ Hp) in H1.
    apply (lookup_in k v d' Hnd') in H1. congruence.
  - apply (lookup_in k v d Hnd) in H1. apply (Permutation_in _ Hp) in H1.
    apply (lookup_in k v d' Hnd') in H1. congruence.
  - apply (lookup_in k v' d' Hnd') in H2. apply (Permutation_in _ (Permutation_sym Hp)) in H2.
    apply (lookup_in k v' d Hnd) in H2. congruence.
Qed.

(** The mapping entry of a key is the entry of its block, provided no
    later header repeats the key. *)
Lemma parse_rosdep_block pre h k b post r :
  parse_lines [] pre = Ok r ->
  search_head h = Some k ->
  Forall (fun l => search_head l = None) b ->
  well_formed post ->
  ~ In k (header_keys post) ->
  exists m, parse_rosdep (pre ++ h :: b ++ post) = Ok m /\
            lookup String.eqb k m = Some (block_entry b (new_info k)).
Proof.
  intros Hpre Hh Hb Hwf Hk.
  unfold parse_rosdep. rewrite parse_lines_app, Hpre. simpl. rewrite Hh.
  rewrite parse_lines_block by exact Hb.
  destruct (parse_lines_after_block r (block_entry b (new_info k)) post Hwf) as [s [Hs Hn]].
  rewrite Hs. eexists; split; [reflexivity|].
  destruct (dict_of_infos_keys (r ++ block_entry b (new_info k) :: s)) as [Hnd _].
  rewrite <- (lookup_perm k _ _ (Permutation_sym (sort_items_perm _))) by exact Hnd.
  unfold dict_of_infos. rewrite fold_left_app. simpl.
  rewrite dict_fold_lookup_other by (rewrite Hn; exact Hk).
  rewrite dict_set_lookup. simpl. now rewrite String.eqb_refl.
Qed.

(** ** [split(" ")] *)

Fixpoint no_space (s : string) : bool :=
  match s with
  | EmptyString => true
  | String c s' => negb (Ascii.eqb c " "%char) && no_space s'
  end.

Lemma string_app_assoc (a b c : string) : ((a ++ b) ++ c)%string = (a ++ (b ++ c))%string.
Proof. induction a as [|x a IH]; simpl; [reflexivity|now rewrite IH]. Qed.

Lemma string_app_nil_r (a : string) : (a ++ "")%string = a.
Proof. induction a as [|x a IH]; simpl; [reflexivity|now rewrite IH]. Qed.

Lemma no_space_app (a b : string) : no_space (a ++ b) = no_space a && no_space b.
Proof. induction a as [|x a IH]; simpl; [reflexivity|rewrite IH; apply andb_assoc]. Qed.

Lemma split_space_acc_cons cur s : exists x xs, split_space_acc cur s = x :: xs.
Proof.
  revert cur; induction s as [|c s IH]; intros cur; simpl; [eauto|].
  destruct (Ascii.eqb c " "%char); eauto.
Qed.

Lemma split_space_acc_join cur s :
  String.concat " " (split_space_acc cur s) = (cur ++ s)%string.
Proof.
  revert cur; induction s as [|c s IH]; intros cur; simpl.
  - now rewrite string_app_nil_r.
  - destruct (Ascii.eqb c " "%char) eqn:Hc.
    + apply Ascii.eqb_eq in Hc; subst.
      destruct (split_space_acc_cons "" s) as [x [xs Hx]].
      rewrite Hx. change (String.concat " " (cur :: x :: xs))
        with (cur ++ " " ++ String.concat " " (x :: xs))%string.
      rewrite <- Hx, IH. reflexivity.
    + rewrite IH, string_app_assoc. reflexivity.
Qed.

Lemma split_space_acc_no_space cur s :
  no_space cur = true -> Forall (fun x => no_space x = true) (split_space_acc cur s).
Proof.
  revert cur; induction s as [|c s IH]; intros cur Hcur; simpl; [auto|].
  destruct (Ascii.eqb c " "%char) eqn:Hc.
  - constructor; [exact Hcur | now apply IH].
  - apply IH. rewrite no_space_app, Hcur. simpl. now rewrite Hc.
Qed.

(** [split_space l] is the list of space-free pieces joined back into [l] by
    single spaces. *)
Lemma split_space_spec (l : string) :
  String.concat " " (split_space l) = l /\
  Forall (fun x => no_space x = true) (split_space l).
Proof.
  split; [apply split_space_acc_join | now apply split_space_acc_no_space].
Qed.

(** ** Claims on the classification of lines *)

(** C2: when a method line or a names line comes before any
    [#ROSDEP[...]] header line, [parse_rosdep] fails with one of its two
    structural errors instead of returning a mapping. *)
Theorem parse_rosdep_line_before_header (pre : list string) (l : string) (rest : list string) :
  Forall (fun x => search_head x = None) pre ->
  search_head l = None ->
  exists e, parse_rosdep (pre ++ l :: rest) = Err e /\
            (e = err_method_first \/ e = err_names_first).
Proof.
  intros Hpre Hl.
  destruct pre as [|x pre]; simpl.
  - unfold parse_rosdep. simpl. rewrite Hl.
    destruct (search_method l); eexists; split; eauto.
  - inversion Hpre as [|? ? Hx _]; subst.
    unfold parse_rosdep. simpl. rewrite Hx.
    destruct (search_method x); eexists; split; eauto.
Qed.

Lemma parse_rosdep_line_before_header_witness :
  Forall (fun x => search_head x = None) ["#apt"] /\
  search_head "libfoo" = None /\
  exists e, parse_rosdep (["#apt"] ++ "libfoo" :: ["#ROSDEP[foo]"]) = Err e /\
            (e = err_method_first \/ e = err_names_first).
Proof.
  split; [constructor; [reflexivity | constructor]|].
  split; [reflexivity|].
  apply parse_rosdep_line_before_header; [constructor; [reflexivity | constructor] | reflexivity].
Defined.

(** C3 (as stated, refuted): a names line is cut at every single space, so
    two consecutive spaces give an empty name, and a tab is not a
    separator. *)
Lemma parse_rosdep_split_counterexample :
  (exists m p, parse_rosdep ["#ROSDEP[k]"; "a  b"] = Ok m /\
               lookup String.eqb "k" m = Some p /\ In "" (resolved_names p)) /\
  (exists m p, parse_rosdep ["#ROSDEP[k]"; ("a" ++ String (ascii_of_nat 9) "b")%string] = Ok m /\
               lookup String.eqb "k" m = Some p /\
               resolved_names p = [("a" ++ String (ascii_of_nat 9) "b")%string]).
Proof.
  split; do 2 eexists; split; [reflexivity| |reflexivity|]; split; try reflexivity.
  simpl. right. now left.
Qed.

(** C3 (amended): the names of an entry come from the last names line of
    its block, which replaces any earlier one; that line is cut at every
    single space character: the pieces contain no space and joined with
    single spaces give the line back. A block without names line leaves
    [resolved_names] empty. *)
Theorem parse_rosdep_names_line pre h k b post r :
  parse_lines [] pre = Ok r ->
  search_head h = Some k ->
  Forall (fun l => search_head l = None) b ->
  well_formed post ->
  ~ In k (header_keys post) ->
  exists m p, parse_rosdep (pre ++ h :: b ++ post) = Ok m /\
    lookup String.eqb k m = Some p /\
    match last_opt (block_names_lines b) with
    | Some l => resolved_names p = split_space l /\
                String.concat " " (resolved_names p) = l /\
                Forall (fun x => no_space x = true) (resolved_names p)
    | None => resolved_names p = []
    end.
Proof.
  intros Hpre Hh Hb Hwf Hk.
  destruct (parse_rosdep_block pre h k b post r Hpre Hh Hb Hwf Hk) as [m [Hm Hl]].
  exists m, (block_entry b (new_info k)). split; [exact Hm|]. split; [exact Hl|].
  unfold block_entry. simpl.
  destruct (last_opt (block_names_lines b)) as [l|]; [|reflexivity].
  split; [reflexivity|]. apply split_space_spec.
Qed.

Lemma parse_rosdep_names_line_witness :
  exists m p, parse_rosdep ([] ++ "#ROSDEP[k]" :: ["#apt"; "x y"; "a  b"] ++ []) = Ok m /\
    lookup String.eqb "k" m = Some p /\
    resolved_names p = split_space "a  b" /\
    String.concat " " (resolved_names p) = "a  b" /\
    Forall (fun x => no_space x = true) (resolved_names p).
Proof.
  apply (parse_rosdep_names_line [] "#ROSDEP[k]" "k" ["#apt"; "x y"; "a  b"] [] []).
  - reflexivity.
  - reflexivity.
  - repeat constructor.
  - exact I.
  - simpl. tauto.
Defined.

(** C9 (as stated, refuted): a second method line in the same block
    changes the method set by the first one. *)
Lemma parse_rosdep_method_counterexample :
  (exists m p, parse_rosdep ["#ROSDEP[k]"; "#apt"] = Ok m /\
               lookup String.eqb "k" m = Some p /\ method p = "apt") /\
  (exists m p, parse_rosdep ["#ROSDEP[k]"; "#apt"; "#pip"] = Ok m /\
               lookup String.eqb "k" m = Some p /\ method p = "pip").
Proof. split; do 2 eexists; split; [reflexivity| |reflexivity|]; split; reflexivity. Qed.

(** C9 (amended): every method line sets the method of the current entry,
    overwriting an earlier one, so the method of a key is the marker of the
    last method line of its block; a block without method line leaves the
    method as the empty string. *)
Theorem parse_rosdep_method_last pre h k b post r :
  parse_lines [] pre = Ok r ->
  search_head h = Some k ->
  Forall (fun l => search_head l = None) b ->
  well_formed post ->
  ~ In k (header_keys post) ->
  exists m p, parse_rosdep (pre ++ h :: b ++ post) = Ok m /\
    lookup String.eqb k m = Some p /\
    method p = last (block_methods b) "" /\
    (block_methods b = [] -> method p = "").
Proof.
  intros Hpre Hh Hb Hwf Hk.
  destruct (parse_rosdep_block pre h k b post r Hpre Hh Hb Hwf Hk) as [m [Hm Hl]].
  exists m, (block_entry b (new_info k)). split; [exact Hm|]. split; [exact Hl|].
  split; [reflexivity|]. intros He. simpl. now rewrite He.
Qed.

Lemma parse_rosdep_method_last_witness :
  exists m p, parse_rosdep (["#ROSDEP[a]"; "#apt"; "liba"] ++ "#ROSDEP[k]" :: ["k1 k2"] ++
                            ["#ROSDEP[z]"; "#pip"; "z"]) = Ok m /\
    lookup String.eqb "k" m = Some p /\
    method p = last (block_methods ["k1 k2"]) "" /\
    (block_methods ["k1 k2"] = [] -> method p = "").
Proof.
  apply (parse_rosdep_method_last ["#ROSDEP[a]"; "#apt"; "liba"] "#ROSDEP[k]" "k" ["k1 k2"]
           ["#ROSDEP[z]"; "#pip"; "z"] [mkInfo "a" "apt" ["liba"] []]).
  - reflexivity.
  - reflexivity.
  - repeat constructor.
  - simpl. discriminate.
  - simpl. intros [H|H]; [discriminate | exact H].
Defined.

(** ** Merge and emission *)


Lemma append_at_keys k v m : map fst (append_at k v m) = map fst m.
Proof.
  induction m as [|[k0 p0] m IH]; simpl; [reflexivity|].
  destruct (String.eqb k0 k); simpl; now rewrite IH.
Qed.



(** What the claims say one entry contributes to a file: each resolved
    name on its own line, suffixed with [sep ++ v] when the entry has the
    single target version [v]. *)
Definition entry_lines (sep : string) (p : RosdepResolvedPackageInfo) : list string :=
  match target_versions p with
  | [v] => map (fun n => n ++ sep ++ v ++ nl)%string (resolved_names p)
  | _ => map (fun n => n ++ nl)%string (resolved_names p)
  end.

Definition file_lines (meth sep : string) (m : list (string * RosdepResolvedPackageInfo)) :=
  flat_map (fun kp => if String.eqb (method (snd kp)) meth then entry_lines sep (snd kp) else [])
           m.

Lemma string_concat_app (l1 l2 : list string) :
  String.concat "" (l1 ++ l2) = (String.concat "" l1 ++ String.concat "" l2)%string.
Proof.
  induction l1 as [|x l1 IH]; [reflexivity|].
  change (String.concat "" ((x :: l1) ++ l2)) with (String.concat "" (x :: (l1 ++ l2))).
  assert (Hc : forall y l, String.concat "" (y :: l) = (y ++ String.concat "" l)%string).
  { intros y [|z l]; simpl; [now rewrite string_app_nil_r | reflexivity]. }
  rewrite !Hc, IH. now rewrite string_app_assoc.
Qed.

Lemma emit_file_acc_ok meth sep w m :
  Forall (fun kp => List.length (target_versions (snd kp)) <= 1) m ->
  emit_file_acc meth sep w m = Written (w ++ String.concat "" (file_lines meth sep m))%string.
Proof.
  revert w; induction m as [|[k p] m IH]; intros w Hm; simpl.
  - now rewrite string_app_nil_r.
  - inversion Hm as [|? ? Hp Hm']; subst. simpl in Hp.
    unfold file_lines. simpl. fold (file_lines meth sep m).
    destruct (String.eqb (method p) meth).
    + unfold package_text, entry_lines.
      destruct (target_versions p) as [|v [|v' vs]]; simpl in Hp; try lia;
        rewrite IH by exact Hm'; rewrite string_concat_app, string_app_assoc;
        reflexivity.
    + apply IH. exact Hm'.
Qed.



(** An entry that stops the emission: its method's file is written and it
    has more than one target version. *)
Definition offending (output_apt output_pip : string) (p : RosdepResolvedPackageInfo) : Prop :=
  ((method p = "apt" /\ output_apt <> "") \/ (method p = "pip" /\ output_pip <> "")) /\
  2 <= List.length (target_versions p).

(** [offends meth kp]: the pass writing the [meth] file raises at [kp]. *)
Definition offends (meth : string) (kp : string * RosdepResolvedPackageInfo) : bool :=
  String.eqb (method (snd kp)) meth && Nat.ltb 1 (List.length (target_versions (snd kp))).

(** The entry at which emission stops, if any: the first entry in key
    order with several target versions met by the apt pass, when the apt
    file is written, and otherwise by the pip pass, when the pip file is
    written. *)
Definition first_offending (output_apt output_pip : string)
    (m : list (string * RosdepResolvedPackageInfo)) : option RosdepResolvedPackageInfo :=
  match (if String.eqb output_apt "" then None else find (offends "apt") m) with
  | Some kp => Some (snd kp)
  | None => if String.eqb output_pip "" then None else option_map snd (find (offends "pip") m)
  end.

Lemma emit_file_acc_find meth sep w m :
  match find (offends meth) m with
  | Some kp => exists t, emit_file_acc meth sep w m = Aborted t (multiple_msg (ros_pkg_name (snd kp)))
  | None => exists t, emit_file_acc meth sep w m = Written t
  end.
Proof.
  revert w; induction m as [|[k0 p0] m IH]; intros w; cbn [find emit_file_acc]; [eauto|].
  unfold offends at 1. cbn [snd]. destruct (String.eqb (method p0) meth); [|apply IH].
  unfold package_text. destruct (target_versions p0) as [|v [|v' vs]]; cbn [andb List.length];
    cbv [Nat.ltb Nat.leb]; [apply IH | apply IH | eauto].
Qed.

Lemma emit_outputs_fatal oa op m :
  fatal (emit_outputs oa op m) =
    option_map (fun q => multiple_msg (ros_pkg_name q)) (first_offending oa op m).
Proof.
  unfold emit_outputs, first_offending, emit_file.
  pose proof (emit_file_acc_find "apt" "=" "" m) as Ha.
  pose proof (emit_file_acc_find "pip" "==" "" m) as Hp.
  assert (Hpip : fatal (if String.eqb op "" then mkOutcome None None None
                        else match emit_file_acc "pip" "==" "" m with
                             | Written t => mkOutcome None (Some t) None
                             | Aborted t e => mkOutcome None (Some t) (Some e)
                             end) =
                 option_map (fun q => multiple_msg (ros_pkg_name q))
                   (if String.eqb op "" then None else option_map snd (find (offends "pip") m))).
  { destruct (String.eqb op ""); [reflexivity|].
    destruct (find (offends "pip") m) as [kp|]; destruct Hp as [t Ht]; rewrite Ht; reflexivity. }
  destruct (String.eqb oa ""); cbn [snd fst].
  - destruct (String.eqb op ""); [reflexivity|].
    destruct (find (offends "pip") m) as [kp|]; destruct Hp as [t Ht]; rewrite Ht; reflexivity.
  - destruct (find (offends "apt") m) as [kp|]; destruct Ha as [t Ht]; rewrite Ht; cbn [snd fst].
    + reflexivity.
    + destruct (String.eqb op ""); [reflexivity|].
      destruct (find (offends "pip") m) as [kp|]; destruct Hp as [t' Ht']; rewrite Ht'; reflexivity.
Qed.

Lemma find_offends_some meth m k p :
  In (k, p) m -> method p = meth -> 2 <= List.length (target_versions p) ->
  exists kp, find (offends meth) m = Some kp.
Proof.
  intros Hin Hm Hl. destruct (find (offends meth) m) as [kp|] eqn:E; [eauto|].
  exfalso. pose proof (find_none _ _ E (k, p) Hin) as Hf.
  unfold offends in Hf. cbn [snd] in Hf. rewrite Hm, String.eqb_refl in Hf.
  simpl in Hf. apply Nat.ltb_ge in Hf. lia.
Qed.

Lemma find_offends_found meth m kp :
  find (offends meth) m = Some kp ->
  In kp m /\ method (snd kp) = meth /\ 2 <= List.length (target_versions (snd kp)).
Proof.
  intros H. apply find_some in H as [Hin Hf]. unfold offends in Hf.
  apply andb_prop in Hf as [Hm Hl]. apply String.eqb_eq in Hm. apply Nat.ltb_lt in Hl.
  repeat split; auto.
Qed.

(** C5: when an apt (pip) entry has more than one target version and the
    apt (pip) file is written, emission fails fatally with the "Multiple
    target versions" error and picks no version. The error names the first
    entry with several target versions that the emission meets (the apt
    file before the pip file, each in key order): the entry itself when it
    is the first, in particular when it is the only one. *)
Theorem emit_outputs_multiple_fails output_apt output_pip m k p :
  In (k, p) m ->
  offending output_apt output_pip p ->
  exists k' q, first_offending output_apt output_pip m = Some q /\
    In (k', q) m /\ offending output_apt output_pip q /\
    fatal (emit_outputs output_apt output_pip m) = Some (multiple_msg (ros_pkg_name q)) /\
    ((forall k2 p2, In (k2, p2) m -> offending output_apt output_pip p2 -> p2 = p) -> q = p).
Proof.
  intros Hin Hoff.
  assert (Hq : exists k' q, first_offending output_apt output_pip m = Some q /\
                 In (k', q) m /\ offending output_apt output_pip q).
  { unfold first_offending.
    destruct (String.eqb output_apt "") eqn:Ha.
    - apply String.eqb_eq in Ha.
      destruct Hoff as [[[_ Hc]|[Hm Hc]] Hl]; [contradiction|].
      apply String.eqb_neq in Hc. rewrite Hc.
      destruct (find_offends_some "pip" m k p Hin Hm Hl) as [[k' q] Hf]. rewrite Hf.
      apply find_offends_found in Hf as [Hin' [Hm' Hl']].
      exists k', q. split; [reflexivity|]. split; [exact Hin'|].
      split; [right; split; [exact Hm'|now apply String.eqb_neq] | exact Hl'].
    - destruct (find (offends "apt") m) as [[k' q]|] eqn:Hf.
      + apply find_offends_found in Hf as [Hin' [Hm' Hl']].
        exists k', q. split; [reflexivity|]. split; [exact Hin'|].
        split; [left; split; [exact Hm'|now apply String.eqb_neq] | exact Hl'].
      + destruct Hoff as [[[Hm _]|[Hm Hc]] Hl].
        * destruct (find_offends_some "apt" m k p Hin Hm Hl) as [kp Hf']. congruence.
        * apply String.eqb_neq in Hc. rewrite Hc.
          destruct (find_offends_some "pip" m k p Hin Hm Hl) as [[k' q] Hf']. rewrite Hf'.
          apply find_offends_found in Hf' as [Hin' [Hm' Hl']].
          exists k', q. split; [reflexivity|]. split; [exact Hin'|].
          split; [right; split; [exact Hm'|now apply String.eqb_neq] | exact Hl']. }
  destruct Hq as [k' [q [Hfirst [Hin' Hoff']]]].
  exists k', q. split; [exact Hfirst|]. split; [exact Hin'|]. split; [exact Hoff'|].
  split.
  - rewrite emit_outputs_fatal, Hfirst. reflexivity.
  - intros Huniq. exact (Huniq k' q Hin' Hoff').
Qed.

Lemma emit_outputs_multiple_fails_witness :
  first_offending "apt.txt" "pip.txt"
    [("a", mkInfo "a" "apt" ["liba"] ["1"; "2"]); ("b", mkInfo "b" "pip" ["pyb"] ["3"; "4"])]
    = Some (mkInfo "a" "apt" ["liba"] ["1"; "2"]) /\
  exists k' q,
    first_offending "apt.txt" "pip.txt"
      [("a", mkInfo "a" "apt" ["liba"] ["1"; "2"]); ("b", mkInfo "b" "pip" ["pyb"] ["3"; "4"])]
      = Some q /\
    In (k', q) [("a", mkInfo "a" "apt" ["liba"] ["1"; "2"]); ("b", mkInfo "b" "pip" ["pyb"] ["3"; "4"])] /\
    offending "apt.txt" "pip.txt" q /\
    fatal (emit_outputs "apt.txt" "pip.txt"
      [("a", mkInfo "a" "apt" ["liba"] ["1"; "2"]); ("b", mkInfo "b" "pip" ["pyb"] ["3"; "4"])])
      = Some (multiple_msg (ros_pkg_name q)) /\
    ((forall k2 p2, In (k2, p2) [("a", mkInfo "a" "apt" ["liba"] ["1"; "2"]);
                                 ("b", mkInfo "b" "pip" ["pyb"] ["3"; "4"])] ->
        offending "apt.txt" "pip.txt" p2 -> p2 = mkInfo "b" "pip" ["pyb"] ["3"; "4"]) ->
     q = mkInfo "b" "pip" ["pyb"] ["3"; "4"]).
Proof.
  split; [reflexivity|].
  apply (emit_outputs_multiple_fails "apt.txt" "pip.txt" _ "b" (mkInfo "b" "pip" ["pyb"] ["3"; "4"])).
  - right. now left.
  - split; [right; split; [reflexivity | discriminate] | simpl; lia].
Defined.

(** C7: a pair whose name is not a key of the mapping leaves the mapping,
    and so the emitted files, unchanged; otherwise only the target versions
    of that key's entry change, by appending the version. *)
Theorem merge_step_effect m (name : option string) (v : string) :
  ((forall k, name = Some k -> has_key k m = false) ->
     merge_step m (name, v) = m /\
     (forall oa op, emit_outputs oa op (merge_step m (name, v)) = emit_outputs oa op m)) /\
  (forall k, name = Some k -> has_key k m = true ->
     map fst (merge_step m (name, v)) = map fst m /\
     forall k' p, lookup String.eqb k' m = Some p ->
       lookup String.eqb k' (merge_step m (name, v)) =
         Some (if String.eqb k' k
               then mkInfo (ros_pkg_name p) (method p) (resolved_names p) (target_versions p ++ [v])
               else p)) /\
  (forall k', lookup String.eqb k' m = None -> lookup String.eqb k' (merge_step m (name, v)) = None).
Proof.
  assert (Hlk : forall k k', lookup String.eqb k' (append_at k v m) =
            option_map (fun p => if String.eqb k' k then append_target_version v p else p)
                       (lookup String.eqb k' m)).
  { intros k k'. induction m as [|[k0 p0] m' IH]; [reflexivity|].
    simpl. destruct (String.eqb k0 k) eqn:H0; simpl;
      destruct (String.eqb k' k0) eqn:H1; try exact IH.
    - apply String.eqb_eq in H0, H1. subst. now rewrite String.eqb_refl.
    - apply String.eqb_eq in H1. subst. now rewrite H0. }
  split; [|split].
  - intros Hn. unfold merge_step. simpl.
    assert (He : match name with Some k => if has_key k m then append_at k v m else m
                                | None => m end = m).
    { destruct name as [k|]; [now rewrite (Hn k eq_refl)|reflexivity]. }
    rewrite He. split; reflexivity.
  - intros k -> Hk. unfold merge_step. simpl. rewrite Hk. split; [apply append_at_keys|].
    intros k' p Hp. rewrite Hlk, Hp. reflexivity.
  - intros k' Hn. unfold merge_step. simpl.
    destruct name as [k|]; [|exact Hn].
    destruct (has_key k m); [|exact Hn]. now rewrite Hlk, Hn.
Qed.

Lemma merge_step_effect_witness :
  merge_step [("foo", mkInfo "foo" "apt" ["libfoo"] [])] (Some "bar", "1.0")
    = [("foo", mkInfo "foo" "apt" ["libfoo"] [])] /\
  lookup String.eqb "foo" (merge_step [("foo", mkInfo "foo" "apt" ["libfoo"] [])] (Some "foo", "1.0"))
    = Some (mkInfo "foo" "apt" ["libfoo"] ["1.0"]).
Proof.
  destruct (merge_step_effect [("foo", mkInfo "foo" "apt" ["libfoo"] [])] (Some "bar") "1.0")
    as [Hskip _].
  destruct (merge_step_effect [("foo", mkInfo "foo" "apt" ["libfoo"] [])] (Some "foo") "1.0")
    as [_ [Happ _]].
  split.
  - destruct Hskip as [E _]; [|exact E].
    intros k Hk. injection Hk as <-. reflexivity.
  - destruct (Happ "foo" eq_refl eq_refl) as [_ Hl].
    exact (Hl "foo" (mkInfo "foo" "apt" ["libfoo"] []) eq_refl).
Defined.

(** ** Duplicate fixed versions *)

Lemma extract_elems_app path d l1 l2 :
  extract_elems path d (l1 ++ l2) =
  match extract_elems path d l1 with Ok d' => extract_elems path d' l2 | Err e => Err e end.
Proof.
  revert d; induction l1 as [|e l1 IH]; intros d; [reflexivity|].
  simpl. destruct (extract_step path d e); [apply IH|reflexivity].
Qed.

(** [needle] occurs in [hay]. *)
Definition contains (needle hay : string) : Prop :=
  exists before after, hay = (before ++ needle ++ after)%string.

(** C6: when an element of the scan carries [version_eq] and its name
    already has a version recorded by an earlier element, extraction fails
    with an error whose message contains the recorded version and the new
    one. *)
Theorem extract_duplicate_fails path children pre e post d old v :
  scan_order children = pre ++ e :: post ->
  extract_elems path [] pre = Ok d ->
  lookup String.eqb "version_eq" (attrib e) = Some v ->
  lookup opt_string_eqb (text e) d = Some old ->
  exists msg, extract_fixed_version_depend_from_package_xml path children = Err msg /\
              contains old msg /\ contains v msg.
Proof.
  intros Hs Hpre Hv Hold.
  unfold extract_fixed_version_depend_from_package_xml. rewrite Hs, extract_elems_app, Hpre.
  simpl. unfold extract_step. simpl. rewrite Hv, Hold.
  eexists; split; [reflexivity|]. unfold duplicate_msg. split.
  - exists "ERROR: Duplicated dependency version found ("%string.
    eexists. reflexivity.
  - exists ("ERROR: Duplicated dependency version found (" ++ old ++ " and ")%string.
    eexists. rewrite !string_app_assoc. reflexivity.
Qed.

Lemma extract_duplicate_fails_witness :
  exists msg, extract_fixed_version_depend_from_package_xml "package.xml"
      [mkElem "depend" (Some "foo") [("version_eq", "1.0")];
       mkElem "exec_depend" (Some "foo") [("version_eq", "2.0")]] = Err msg /\
    contains "2.0" msg /\ contains "1.0" msg.
Proof.
  apply (extract_duplicate_fails "package.xml" _
           [mkElem "exec_depend" (Some "foo") [("version_eq", "2.0")]]
           (mkElem "depend" (Some "foo") [("version_eq", "1.0")]) []
           [(Some "foo", "2.0")]).
  - reflexivity.
  - reflexivity.
  - reflexivity.
  - reflexivity.
Defined.

(** ** The [--dependency-types] option *)

(** C8: a space-separated value such as ["build exec"] is rejected by the
    [choices] check of [optparse] before [main] splits the values; only
    values given one token at a time are accepted. *)
Theorem dependency_types_multi_token_rejected :
  parse_dependency_types ["build exec"] =
    Err "option --dependency-types: invalid choice: 'build exec'" /\
  parse_dependency_types ["build"; "exec"] = Ok ["build"; "exec"].
Proof. split; reflexivity. Qed.

(** ** Entries of other methods *)

Lemma emit_file_acc_skip meth sep w pre k p post :
  method p <> meth ->
  emit_file_acc meth sep w (pre ++ (k, p) :: post) = emit_file_acc meth sep w (pre ++ post).
Proof.
  intros Hm. revert w; induction pre as [|[k0 p0] pre IH]; intros w; simpl.
  - apply String.eqb_neq in Hm. now rewrite Hm.
  - destruct (String.eqb (method p0) meth); [|apply IH].
    destruct (package_text sep p0); [apply IH|reflexivity].
Qed.

(** C10: an entry whose method is neither apt nor pip (for instance the
    empty method of a block without method line) has no effect on the
    emission: both files and the error, if any, are those of the mapping
    without that entry. *)
Theorem emit_outputs_other_method output_apt output_pip pre k p post :
  method p <> "apt" -> method p <> "pip" ->
  emit_outputs output_apt output_pip (pre ++ (k, p) :: post) =
  emit_outputs output_apt output_pip (pre ++ post).
Proof.
  intros Ha Hp. unfold emit_outputs, emit_file.
  rewrite (emit_file_acc_skip "apt" "=" "" pre k p post Ha).
  rewrite (emit_file_acc_skip "pip" "==" "" pre k p post Hp).
  reflexivity.
Qed.

Lemma emit_outputs_other_method_witness :
  emit_outputs "apt.txt" "pip.txt"
    ([("a", mkInfo "a" "apt" ["liba"] [])] ++
     ("u", mkInfo "u" "" ["x"; "y"] ["1"; "2"]) :: [("z", mkInfo "z" "pip" ["z"] [])]) =
  mkOutcome (Some ("liba" ++ nl)%string) (Some ("z" ++ nl)%string) None.
Proof.
  rewrite (emit_outputs_other_method "apt.txt" "pip.txt" _ "u" (mkInfo "u" "" ["x"; "y"] ["1"; "2"])).
  - reflexivity.
  - discriminate.
  - discriminate.
Defined.

(** * Further properties of the code *)

(** ** [parse_rosdep] *)

(** [parse_rosdep] fails exactly when the first line is not a header line. *)
Theorem parse_rosdep_fails_iff (lines : list string) :
  (exists e, parse_rosdep lines = Err e) <->
  (exists l rest, lines = l :: rest /\ search_head l = None).
Proof.
  split.
  - intros [e He]. destruct lines as [|l rest]; [discriminate|].
    exists l, rest. split; [reflexivity|].
    destruct (search_head l) eqn:Hh; [|reflexivity]. exfalso.
    destruct (parse_lines_wf (l :: rest)) as [r [Hr _]]; [simpl; congruence|].
    unfold parse_rosdep in He. rewrite Hr in He. discriminate.
  - intros [l [rest [-> Hh]]]. unfold parse_rosdep. simpl. rewrite Hh.
    destruct (search_method l); eexists; reflexivity.
Qed.

Definition entry_ok (p : RosdepResolvedPackageInfo) : Prop :=
  target_versions p = [] /\ (method p = "" \/ method p = "apt" \/ method p = "pip").

Lemma search_method_values l m : search_method l = Some m -> m = "apt" \/ m = "pip".
Proof.
  induction l as [|c l IH]; simpl.
  - unfold method_match_at. simpl. discriminate.
  - unfold method_match_at at 1.
    destruct (starts_with "#apt" (String c l)); [intros H; injection H as <-; now left|].
    destruct (starts_with "#pip" (String c l)); [intros H; injection H as <-; now right|].
    exact IH.
Qed.

Lemma update_last_forall {A} (P : A -> Prop) (f : A -> A) l :
  (forall x, P x -> P (f x)) -> Forall P l -> Forall P (update_last f l).
Proof.
  intros Hf Hl. induction Hl as [|x l Hx Hl IH]; [constructor|].
  destruct l as [|y l]; simpl; constructor; auto.
Qed.

Lemma parse_lines_entries acc lines r :
  Forall entry_ok acc -> parse_lines acc lines = Ok r -> Forall entry_ok r.
Proof.
  revert acc; induction lines as [|l lines IH]; intros acc Hacc Hp; simpl in Hp.
  - injection Hp as <-. exact Hacc.
  - destruct (search_head l) as [k|].
    + refine (IH _ _ Hp). apply Forall_app. split; [exact Hacc|].
      constructor; [|constructor]. split; [reflexivity|now left].
    + destruct (search_method l) as [m|] eqn:Hm; destruct acc; try discriminate;
        refine (IH _ _ Hp); apply update_last_forall; auto;
        intros x [Hx1 Hx2]; split; auto; simpl.
      apply search_method_values in Hm. tauto.
Qed.

Definition item_ok (kp : string * RosdepResolvedPackageInfo) : Prop :=
  ros_pkg_name (snd kp) = fst kp /\ entry_ok (snd kp).

Lemma dict_set_forall {V} (Q : string * V -> Prop) k v d :
  Forall Q d -> Q (k, v) -> Forall Q (dict_set k v d).
Proof.
  intros Hd Hkv. induction Hd as [|[k0 v0] d H0 Hd IH]; simpl; [auto|].
  destruct (String.eqb k k0); constructor; auto.
Qed.

Lemma parse_rosdep_items lines m :
  parse_rosdep lines = Ok m -> Forall item_ok m.
Proof.
  unfold parse_rosdep. destruct (parse_lines [] lines) as [r|e] eqn:Hr; [|discriminate].
  intros H; injection H as <-.
  apply (parse_lines_entries [] lines r (Forall_nil _)) in Hr.
  eapply Permutation_Forall; [apply Permutation_sym, sort_items_perm|].
  unfold dict_of_infos.
  assert (Hgen : forall d, Forall item_ok d ->
            Forall item_ok (fold_left (fun d p => dict_set (ros_pkg_name p) p d) r d)).
  { induction Hr as [|p r Hp Hr IH]; intros d Hd; simpl; [exact Hd|].
    apply IH, dict_set_forall; [exact Hd|]. split; [reflexivity|exact Hp]. }
  apply Hgen. constructor.
Qed.

(** Every entry of the parsed mapping is stored under its own
    [ros_pkg_name], has no target version yet, and has the method [""],
    ["apt"] or ["pip"]. *)
Theorem parse_rosdep_entries_invariant lines m :
  parse_rosdep lines = Ok m ->
  Forall (fun kp => ros_pkg_name (snd kp) = fst kp /\ target_versions (snd kp) = [] /\
                    (method (snd kp) = "" \/ method (snd kp) = "apt" \/ method (snd kp) = "pip")) m.
Proof.
  intros H. exact (parse_rosdep_items lines m H).
Qed.

Lemma parse_rosdep_entries_invariant_witness :
  parse_rosdep ["#ROSDEP[a]"; "#pip"; "x"; "#ROSDEP[b]"; "y"]
    = Ok [("a", mkInfo "a" "pip" ["x"] []); ("b", mkInfo "b" "" ["y"] [])] /\
  Forall (fun kp => ros_pkg_name (snd kp) = fst kp /\ target_versions (snd kp) = [] /\
                    (method (snd kp) = "" \/ method (snd kp) = "apt" \/ method (snd kp) = "pip"))
    [("a", mkInfo "a" "pip" ["x"] []); ("b", mkInfo "b" "" ["y"] [])].
Proof.
  split; [reflexivity|]. apply (parse_rosdep_entries_invariant ["#ROSDEP[a]"; "#pip"; "x"; "#ROSDEP[b]"; "y"]).
  reflexivity.
Defined.

(** When a key has two header lines, whatever lines lie between them
    (other keys' blocks included), the mapping keeps one entry for it,
    built from the later block alone. *)
Theorem parse_rosdep_repeated_key pre h1 mid h2 b2 post k r :
  parse_lines [] pre = Ok r ->
  search_head h1 = Some k -> search_head h2 = Some k ->
  Forall (fun l => search_head l = None) b2 ->
  well_formed post -> ~ In k (header_keys post) ->
  exists m, parse_rosdep (pre ++ h1 :: mid ++ h2 :: b2 ++ post) = Ok m /\
    lookup String.eqb k m = Some (block_entry b2 (new_info k)) /\
    NoDup (map fst m).
Proof.
  intros Hpre H1 H2 Hb2 Hwf Hk.
  assert (Hpre' : exists r', parse_lines [] (pre ++ h1 :: mid) = Ok r').
  { rewrite parse_lines_app, Hpre. simpl. rewrite H1.
    destruct (parse_lines_ok (r ++ [new_info k]) mid (snoc_not_nil r _)) as [r' [Hr' _]].
    now exists r'. }
  destruct Hpre' as [r' Hr'].
  destruct (parse_rosdep_block (pre ++ h1 :: mid) h2 k b2 post r' Hr' H2 Hb2 Hwf Hk)
    as [m [Hm Hl]].
  exists m. split; [|split; [exact Hl|]].
  - rewrite <- Hm. f_equal. rewrite <- app_assoc. reflexivity.
  - revert Hm. unfold parse_rosdep.
    destruct (parse_lines [] ((pre ++ h1 :: mid) ++ h2 :: b2 ++ post)) as [q|];
      intros Hm; [|discriminate].
    injection Hm as <-. destruct (dict_of_infos_keys q) as [Hnd _].
    eapply Permutation_NoDup; [apply Permutation_sym, Permutation_map, sort_items_perm | exact Hnd].
Qed.

Lemma parse_rosdep_repeated_key_witness :
  exists m, parse_rosdep (["#ROSDEP[a]"; "#apt"; "liba"] ++ "#ROSDEP[k]" ::
                          ["#apt"; "old"; "#ROSDEP[j]"; "#pip"; "pyj"] ++
                          "#ROSDEP[k]" :: ["new"] ++ ["#ROSDEP[z]"; "libz"]) = Ok m /\
    lookup String.eqb "k" m = Some (block_entry ["new"] (new_info "k")) /\
    NoDup (map fst m).
Proof.
  apply (parse_rosdep_repeated_key ["#ROSDEP[a]"; "#apt"; "liba"] "#ROSDEP[k]"
           ["#apt"; "old"; "#ROSDEP[j]"; "#pip"; "pyj"] "#ROSDEP[k]" ["new"]
           ["#ROSDEP[z]"; "libz"] "k" [mkInfo "a" "apt" ["liba"] []]).
  - reflexivity.
  - reflexivity.
  - reflexivity.
  - repeat constructor.
  - discriminate.
  - simpl. intuition discriminate.
Defined.

(** ** The resolver invoker *)

Fixpoint string_has (c : ascii) (s : string) : bool :=
  match s with
  | EmptyString => false
  | String d s' => Ascii.eqb d c || string_has c s'
  end.

Definition newline : ascii := ascii_of_nat 10.

Lemma string_has_app c a b : string_has c (a ++ b) = string_has c a || string_has c b.
Proof. induction a as [|x a IH]; simpl; [reflexivity|rewrite IH; apply orb_assoc]. Qed.

Lemma split_on_acc_pieces sep cur s x :
  string_has sep cur = false -> In x (split_on_acc sep cur s) -> string_has sep x = false.
Proof.
  revert cur; induction s as [|c s IH]; intros cur Hcur Hx; simpl in Hx.
  - destruct Hx as [<-|[]]. exact Hcur.
  - destruct (Ascii.eqb c sep) eqn:Hc.
    + destruct Hx as [<-|Hx]; [exact Hcur|]. apply (IH "" eq_refl Hx).
    + refine (IH _ _ Hx). rewrite string_has_app, Hcur. simpl. now rewrite Hc.
Qed.

Lemma nonblank_lines_no_newline out x :
  In x (nonblank_lines out) -> string_has newline x = false.
Proof.
  unfold nonblank_lines. rewrite filter_In. intros [Hx _].
  exact (split_on_acc_pieces _ "" out x eq_refl Hx).
Qed.

Lemma nonblank_lines_nonblank out x : In x (nonblank_lines out) -> is_blank x = false.
Proof.
  unfold nonblank_lines. rewrite filter_In. intros [_ Hx]. now apply negb_true_iff.
Qed.

Lemma search_head_unfold s :
  search_head s = match head_match_at s with
                  | Some g => Some g
                  | None => match s with EmptyString => None | String _ s' => search_head s' end
                  end.
Proof. destruct s; reflexivity. Qed.

Lemma lazy_group_header_ok k :
  string_has newline k = false -> exists g, lazy_group_to_bracket (k ++ "]") = Some g.
Proof.
  induction k as [|c k IH]; simpl; intros Hk; [now exists ""|].
  apply orb_false_iff in Hk as [Hc Hk].
  destruct (Ascii.eqb c "]"%char); [now exists ""|].
  unfold newline in Hc. rewrite Hc. destruct (IH Hk) as [g Hg]. rewrite Hg. now exists (String c g).
Qed.

Lemma lazy_group_header_key k :
  string_has "]"%char k = false -> string_has newline k = false ->
  lazy_group_to_bracket (k ++ "]") = Some k.
Proof.
  induction k as [|c k IH]; simpl; intros Hb Hk; [reflexivity|].
  apply orb_false_iff in Hb as [Hb1 Hb]. apply orb_false_iff in Hk as [Hc Hk].
  rewrite Hb1. unfold newline in Hc. rewrite Hc. now rewrite IH.
Qed.

Lemma head_match_at_header k : head_match_at (header_line k) = lazy_group_to_bracket (k ++ "]").
Proof. reflexivity. Qed.

Lemma search_head_header k :
  string_has newline k = false -> search_head (header_line k) <> None.
Proof.
  intros Hk. rewrite search_head_unfold, head_match_at_header.
  destruct (lazy_group_header_ok k Hk) as [g Hg]. now rewrite Hg.
Qed.

Lemma search_head_header_key k :
  string_has "]"%char k = false -> string_has newline k = false ->
  search_head (header_line k) = Some k.
Proof.
  intros Hb Hk. rewrite search_head_unfold, head_match_at_header.
  now rewrite lazy_group_header_key.
Qed.

Lemma well_formed_app acc x rest :
  well_formed acc -> search_head x <> None -> well_formed (acc ++ x :: rest).
Proof. destruct acc; simpl; auto. Qed.

Lemma run_rosdep_key_no_newline run path types cs pkgs :
  run_rosdep_key run path types cs = Ok pkgs ->
  Forall (fun k => string_has newline k = false) pkgs.
Proof.
  unfold run_rosdep_key. destruct (Z.eqb _ 0); intros H; [|discriminate].
  injection H as <-. apply Forall_forall. intros x Hx. exact (nonblank_lines_no_newline _ x Hx).
Qed.

Lemma resolve_all_shape run dist pkgs acc lines :
  Forall (fun k => string_has newline k = false) pkgs ->
  well_formed acc -> Forall (fun l => is_blank l = false) acc ->
  resolve_all run dist pkgs acc = Ok lines ->
  well_formed lines /\ Forall (fun l => is_blank l = false) lines.
Proof.
  revert acc; induction pkgs as [|k pkgs IH]; intros acc Hp Hwf Hnb Hr; simpl in Hr.
  - injection Hr as <-. now split.
  - inversion Hp as [|? ? Hk Hp']; subst.
    destruct dist as [d|]; [|discriminate].
    destruct (negb (Z.eqb _ 0)); [exact (IH acc Hp' Hwf Hnb Hr)|].
    refine (IH _ Hp' _ _ Hr).
    + apply well_formed_app; [exact Hwf|]. exact (search_head_header k Hk).
    + apply Forall_app. split; [exact Hnb|]. constructor; [reflexivity|].
      apply Forall_forall. intros x Hx. exact (nonblank_lines_nonblank _ x Hx).
Qed.

(** The lines handed to the parser contain no blank line, and the parser
    always accepts them: every block starts with its header line. *)
Theorem rosdep_key_and_resolve_parses run dist path types cs lines :
  rosdep_key_and_resolve run dist path types cs = Ok lines ->
  Forall (fun l => is_blank l = false) lines /\ exists m, parse_rosdep lines = Ok m.
Proof.
  unfold rosdep_key_and_resolve.
  destruct (run_rosdep_key run path types cs) as [pkgs|e] eqn:Hk; [|discriminate].
  intros Hr.
  destruct (resolve_all_shape run dist pkgs [] lines (run_rosdep_key_no_newline _ _ _ _ _ Hk)
              I (Forall_nil _) Hr) as [Hwf Hnb].
  split; [exact Hnb|].
  destruct (parse_lines_wf lines Hwf) as [r [Hr' _]].
  unfold parse_rosdep. rewrite Hr'. eexists; reflexivity.
Qed.

Lemma header_keys_none ls :
  (forall l, In l ls -> search_head l = None) ->
  flat_map (fun l => match search_head l with Some k0 => [k0] | None => [] end) ls = [].
Proof.
  induction ls as [|l ls IH]; intros H; [reflexivity|].
  simpl. rewrite (H l (or_introl eq_refl)). apply IH. intros x Hx. apply H. now right.
Qed.

Lemma resolve_all_headers run d pkgs acc :
  Forall (fun k => string_has "]"%char k = false /\ string_has newline k = false) pkgs ->
  (forall k l, In k pkgs -> returncode (run (resolve_command d k)) = 0%Z ->
     In l (nonblank_lines (stdout (run (resolve_command d k)))) -> search_head l = None) ->
  exists lines, resolve_all run (Some d) pkgs acc = Ok lines /\
    header_keys lines =
      header_keys acc ++ filter (fun k => Z.eqb (returncode (run (resolve_command d k))) 0) pkgs.
Proof.
  revert acc; induction pkgs as [|k pkgs IH]; intros acc Hp Hout; simpl.
  - exists acc. now rewrite app_nil_r.
  - inversion Hp as [|? ? [Hb Hk] Hp']; subst.
    assert (Hout' : forall k' l, In k' pkgs -> returncode (run (resolve_command d k')) = 0%Z ->
              In l (nonblank_lines (stdout (run (resolve_command d k')))) -> search_head l = None)
      by (intros k' l Hk'; apply Hout; now right).
    destruct (Z.eqb (returncode (run (resolve_command d k))) 0) eqn:Hrc; simpl.
    + destruct (IH (acc ++ header_line k :: nonblank_lines (stdout (run (resolve_command d k))))
                  Hp' Hout') as [lines [Hl Hh]].
      exists lines. split; [exact Hl|]. rewrite Hh.
      unfold header_keys at 1. rewrite flat_map_app. cbn [flat_map].
      rewrite (search_head_header_key k Hb Hk).
      assert (Hnone : flat_map (fun l => match search_head l with Some k0 => [k0] | None => [] end)
                        (nonblank_lines (stdout (run (resolve_command d k)))) = []).
      { apply Z.eqb_eq in Hrc. apply header_keys_none.
        intros l Hl'. exact (Hout k l (or_introl eq_refl) Hrc Hl'). }
      rewrite Hnone. simpl. rewrite <- app_assoc. reflexivity.
    + destruct (IH acc Hp' Hout') as [lines [Hl Hh]]. exists lines. now split.
Qed.

Lemma parse_rosdep_wf_keys lines :
  well_formed lines ->
  exists m, parse_rosdep lines = Ok m /\
            forall k, In k (map fst m) <-> In k (header_keys lines).
Proof.
  intros Hwf. destruct (parse_lines_wf lines Hwf) as [r [Hr Hn]].
  unfold parse_rosdep. rewrite Hr. eexists; split; [reflexivity|].
  intros k. destruct (dict_of_infos_keys r) as [_ Hk].
  pose proof (Permutation_map fst (sort_items_perm (dict_of_infos r))) as Hpm.
  split; intros H.
  - rewrite <- Hn. apply Hk. exact (Permutation_in _ Hpm H).
  - rewrite <- Hn in H. apply Hk in H. exact (Permutation_in _ (Permutation_sym Hpm) H).
Qed.

(** When no key contains [']'] and no resolver output line is itself a
    header line, the parsed mapping has exactly the listed keys whose
    [rosdep resolve] command succeeded: a failing key is skipped. *)
Theorem rosdep_key_and_resolve_keys run d path types cs pkgs :
  run_rosdep_key run path types cs = Ok pkgs ->
  Forall (fun k => string_has "]"%char k = false) pkgs ->
  (forall k l, In k pkgs -> returncode (run (resolve_command d k)) = 0%Z ->
     In l (nonblank_lines (stdout (run (resolve_command d k)))) -> search_head l = None) ->
  exists lines m, rosdep_key_and_resolve run (Some d) path types cs = Ok lines /\
    parse_rosdep lines = Ok m /\
    forall k, In k (map fst m) <-> In k pkgs /\ returncode (run (resolve_command d k)) = 0%Z.
Proof.
  intros Hk Hb Hout.
  pose proof (run_rosdep_key_no_newline _ _ _ _ _ Hk) as Hnl.
  assert (Hp : Forall (fun k => string_has "]"%char k = false /\ string_has newline k = false) pkgs).
  { apply Forall_forall. intros x Hx. split.
    - exact (proj1 (Forall_forall _ _) Hb x Hx).
    - exact (proj1 (Forall_forall _ _) Hnl x Hx). }
  destruct (resolve_all_headers run d pkgs [] Hp Hout) as [lines [Hl Hh]].
  assert (Hres : rosdep_key_and_resolve run (Some d) path types cs = Ok lines)
    by (unfold rosdep_key_and_resolve; now rewrite Hk).
  destruct (resolve_all_shape run (Some d) pkgs [] lines Hnl I (Forall_nil _) Hl) as [Hwf _].
  destruct (parse_rosdep_wf_keys lines Hwf) as [m [Hm Hkeys]].
  exists lines, m. split; [exact Hres|]. split; [exact Hm|].
  intros k. rewrite Hkeys, Hh. simpl. rewrite filter_In. now rewrite Z.eqb_eq.
Qed.

(** The block [rosdep_key_and_resolve] adds for a key whose command
    succeeds: the header line, then the non-blank output lines. *)
Definition resolved_block (run : string -> proc_result) (d k : string) : list string :=
  header_line k :: nonblank_lines (stdout (run (resolve_command d k))).

Lemma resolve_all_flat run d pkgs acc :
  resolve_all run (Some d) pkgs acc =
    Ok (acc ++ flat_map (resolved_block run d)
                 (filter (fun k => Z.eqb (returncode (run (resolve_command d k))) 0) pkgs)).
Proof.
  revert acc; induction pkgs as [|k pkgs IH]; intros acc; simpl.
  - now rewrite app_nil_r.
  - destruct (Z.eqb (returncode (run (resolve_command d k))) 0); simpl.
    + rewrite IH. unfold resolved_block at 2. now rewrite <- app_assoc.
    + apply IH.
Qed.

Lemma last_occurrence (x : string) l : In x l -> exists A B, l = A ++ x :: B /\ ~ In x B.
Proof.
  induction l as [|y l IH]; intros Hx; [destruct Hx|].
  destruct (in_dec string_dec x l) as [Hl|Hl].
  - destruct (IH Hl) as [A [B [-> HB]]]. now exists (y :: A), B.
  - destruct Hx as [<-|Hx]; [|contradiction]. now exists [], l.
Qed.

Lemma resolved_blocks_wf run d ks :
  Forall (fun k => string_has newline k = false) ks ->
  well_formed (flat_map (resolved_block run d) ks).
Proof.
  intros H. destruct H as [|k ks Hk _]; simpl; [exact I|].
  exact (search_head_header k Hk).
Qed.

Lemma resolved_blocks_keys run d ks :
  Forall (fun k => string_has "]"%char k = false /\ string_has newline k = false) ks ->
  (forall k l, In k ks -> In l (nonblank_lines (stdout (run (resolve_command d k)))) ->
     search_head l = None) ->
  header_keys (flat_map (resolved_block run d) ks) = ks.
Proof.
  induction ks as [|k ks IH]; intros Hks Hout; [reflexivity|].
  inversion Hks as [|? ? [Hb Hk] Hks']; subst.
  change (flat_map (resolved_block run d) (k :: ks))
    with (resolved_block run d k ++ flat_map (resolved_block run d) ks).
  unfold header_keys. rewrite flat_map_app.
  fold (header_keys (flat_map (resolved_block run d) ks)).
  rewrite IH; [|exact Hks'|intros k' l Hk'; apply Hout; now right].
  unfold resolved_block. cbn [flat_map]. rewrite (search_head_header_key k Hb Hk).
  rewrite header_keys_none by (intros l Hl; exact (Hout k l (or_introl eq_refl) Hl)).
  reflexivity.
Qed.

(** Under the conditions of the previous theorem, the entry of every
    listed key whose [rosdep resolve] command succeeded is built from that
    command's own output: its method is the last method marker of the
    output, its names the split of the last other line, and it has no
    target version yet. This holds also when [rosdep keys] lists a key
    twice. *)
Theorem rosdep_key_and_resolve_entry run d path types cs pkgs k :
  run_rosdep_key run path types cs = Ok pkgs ->
  Forall (fun k => string_has "]"%char k = false) pkgs ->
  (forall k l, In k pkgs -> returncode (run (resolve_command d k)) = 0%Z ->
     In l (nonblank_lines (stdout (run (resolve_command d k)))) -> search_head l = None) ->
  In k pkgs -> returncode (run (resolve_command d k)) = 0%Z ->
  exists lines m, rosdep_key_and_resolve run (Some d) path types cs = Ok lines /\
    parse_rosdep lines = Ok m /\
    lookup String.eqb k m =
      Some (block_entry (nonblank_lines (stdout (run (resolve_command d k)))) (new_info k)).
Proof.
  intros Hk Hb Hout Hin Hrc.
  pose proof (run_rosdep_key_no_newline _ _ _ _ _ Hk) as Hnl.
  set (ok := fun k => Z.eqb (returncode (run (resolve_command d k))) 0).
  assert (Hok : forall x, In x (filter ok pkgs) ->
            In x pkgs /\ returncode (run (resolve_command d x)) = 0%Z).
  { intros x Hx. apply filter_In in Hx as [Hx Hr]. split; [exact Hx|]. now apply Z.eqb_eq. }
  assert (Hkf : In k (filter ok pkgs)) by (apply filter_In; split; [exact Hin|now apply Z.eqb_eq]).
  destruct (last_occurrence k _ Hkf) as [A [B [HAB HB]]].
  assert (HinA : forall x, In x A -> In x (filter ok pkgs))
    by (intros x Hx; rewrite HAB; apply in_or_app; now left).
  assert (HinB : forall x, In x B -> In x (filter ok pkgs))
    by (intros x Hx; rewrite HAB; apply in_or_app; right; now right).
  assert (Hfl : forall C, (forall x, In x C -> In x (filter ok pkgs)) ->
            Forall (fun k => string_has "]"%char k = false /\ string_has newline k = false) C).
  { intros C HC. apply Forall_forall. intros x Hx. destruct (Hok x (HC x Hx)) as [Hx' _].
    split; [exact (proj1 (Forall_forall _ _) Hb x Hx') | exact (proj1 (Forall_forall _ _) Hnl x Hx')]. }
  assert (Hres : rosdep_key_and_resolve run (Some d) path types cs =
                 Ok (flat_map (resolved_block run d) A ++
                     header_line k :: nonblank_lines (stdout (run (resolve_command d k))) ++
                     flat_map (resolved_block run d) B)).
  { unfold rosdep_key_and_resolve. rewrite Hk, resolve_all_flat. fold ok. rewrite HAB.
    rewrite flat_map_app. reflexivity. }
  assert (HwfA : well_formed (flat_map (resolved_block run d) A)).
  { apply resolved_blocks_wf. eapply Forall_impl; [|exact (Hfl A HinA)]. intros x [_ Hx]. exact Hx. }
  destruct (parse_lines_wf _ HwfA) as [r [Hr _]].
  assert (HkB : ~ In k (header_keys (flat_map (resolved_block run d) B))).
  { rewrite resolved_blocks_keys; [exact HB|exact (Hfl B HinB)|].
    intros x l Hx. destruct (Hok x (HinB x Hx)) as [Hx' Hrx]. exact (Hout x l Hx' Hrx). }
  assert (HwfB : well_formed (flat_map (resolved_block run d) B)).
  { apply resolved_blocks_wf. eapply Forall_impl; [|exact (Hfl B HinB)]. intros x [_ Hx]. exact Hx. }
  assert (Hhk : search_head (header_line k) = Some k).
  { apply search_head_header_key.
    - exact (proj1 (Forall_forall _ _) Hb k Hin).
    - exact (proj1 (Forall_forall _ _) Hnl k Hin). }
  assert (Hblk : Forall (fun l => search_head l = None)
                   (nonblank_lines (stdout (run (resolve_command d k))))).
  { apply Forall_forall. intros l Hl. exact (Hout k l Hin Hrc Hl). }
  destruct (parse_rosdep_block _ _ k _ _ r Hr Hhk Hblk HwfB HkB) as [m [Hm Hl]].
  exists (flat_map (resolved_block run d) A ++
          header_line k :: nonblank_lines (stdout (run (resolve_command d k))) ++
          flat_map (resolved_block run d) B), m.
  split; [exact Hres|]. split; [exact Hm|exact Hl].
Qed.

(** A shell answering the rosdep commands of a small workspace. *)
Definition example_run (cmd : string) : proc_result :=
  if String.eqb cmd (keys_command "ws" [] false)
  then mkProc 0 ("foo" ++ nl ++ "bar" ++ nl ++ "baz" ++ nl) ""
  else if String.eqb cmd (resolve_command "humble" "foo")
  then mkProc 0 ("#apt" ++ nl ++ "libfoo1 libfoo2" ++ nl) ""
  else if String.eqb cmd (resolve_command "humble" "bar")
  then mkProc 0 ("#pip" ++ nl ++ "pybar" ++ nl) ""
  else mkProc 1 "" "ERROR: no rosdep rule".

Lemma rosdep_key_and_resolve_parses_witness :
  rosdep_key_and_resolve example_run (Some "humble") "ws" [] false =
    Ok ["#ROSDEP[foo]"; "#apt"; "libfoo1 libfoo2"; "#ROSDEP[bar]"; "#pip"; "pybar"] /\
  Forall (fun l => is_blank l = false)
    ["#ROSDEP[foo]"; "#apt"; "libfoo1 libfoo2"; "#ROSDEP[bar]"; "#pip"; "pybar"] /\
  exists m, parse_rosdep ["#ROSDEP[foo]"; "#apt"; "libfoo1 libfoo2"; "#ROSDEP[bar]"; "#pip"; "pybar"]
            = Ok m.
Proof.
  assert (H : rosdep_key_and_resolve example_run (Some "humble") "ws" [] false =
    Ok ["#ROSDEP[foo]"; "#apt"; "libfoo1 libfoo2"; "#ROSDEP[bar]"; "#pip"; "pybar"])
    by (vm_compute; reflexivity).
  split; [exact H|]. exact (rosdep_key_and_resolve_parses _ _ _ _ _ _ H).
Defined.

Lemma rosdep_key_and_resolve_keys_witness :
  exists lines m, rosdep_key_and_resolve example_run (Some "humble") "ws" [] false = Ok lines /\
    parse_rosdep lines = Ok m /\
    forall k, In k (map fst m) <->
      In k ["foo"; "bar"; "baz"] /\ returncode (example_run (resolve_command "humble" k)) = 0%Z.
Proof.
  apply (rosdep_key_and_resolve_keys example_run "humble" "ws" [] false ["foo"; "bar"; "baz"]).
  - vm_compute. reflexivity.
  - repeat constructor.
  - intros k l Hk Hrc Hl.
    destruct Hk as [<-|[<-|[<-|[]]]]; vm_compute in Hrc, Hl;
      try discriminate; repeat destruct Hl as [<-|Hl]; try contradiction; reflexivity.
Defined.

Lemma rosdep_key_and_resolve_entry_witness :
  exists lines m, rosdep_key_and_resolve example_run (Some "humble") "ws" [] false = Ok lines /\
    parse_rosdep lines = Ok m /\
    lookup String.eqb "foo" m =
      Some (block_entry (nonblank_lines (stdout (example_run (resolve_command "humble" "foo"))))
                        (new_info "foo")).
Proof.
  apply (rosdep_key_and_resolve_entry example_run "humble" "ws" [] false ["foo"; "bar"; "baz"]).
  - vm_compute. reflexivity.
  - repeat constructor.
  - intros k l Hk Hrc Hl.
    destruct Hk as [<-|[<-|[<-|[]]]]; vm_compute in Hrc, Hl;
      try discriminate; repeat destruct Hl as [<-|Hl]; try contradiction; reflexivity.
  - now left.
  - vm_compute. reflexivity.
Defined.


(** ** Extraction of fixed versions *)

(** The [(dep.text, version_eq)] pairs of the scanned elements, in scan
    order. *)
Definition version_eq_pairs (es : list element) : list (option string * string) :=
  flat_map (fun e => match lookup String.eqb "version_eq" (attrib e) with
                     | Some v => [(text e, v)]
                     | None => []
                     end) es.

Lemma opt_string_eqb_eq a b : opt_string_eqb a b = true <-> a = b.
Proof.
  destruct a as [x|], b as [y|]; simpl; try (split; congruence).
  rewrite String.eqb_eq. split; congruence.
Qed.

Lemma lookup_opt_none k (d : list (option string * string)) :
  lookup opt_string_eqb k d = None <-> ~ In k (map fst d).
Proof.
  induction d as [|[k0 v0] d IH]; simpl; [tauto|].
  destruct (opt_string_eqb k k0) eqn:He.
  - apply opt_string_eqb_eq in He. subst. split; [discriminate|tauto].
  - rewrite IH. split; [|tauto]. intros Hn [H|H]; [|contradiction].
    subst. assert (opt_string_eqb k k = true) by now apply opt_string_eqb_eq. congruence.
Qed.

Lemma extract_step_pairs path d e :
  extract_step path d e =
  match lookup String.eqb "version_eq" (attrib e) with
  | None => Ok d
  | Some v => match lookup opt_string_eqb (text e) d with
              | Some old => Err (duplicate_msg old v (text e) path)
              | None => Ok (d ++ [(text e, v)])
              end
  end.
Proof. reflexivity. Qed.

Lemma extract_elems_nodup path es d :
  NoDup (map fst (d ++ version_eq_pairs es)) ->
  extract_elems path d es = Ok (d ++ version_eq_pairs es).
Proof.
  revert d; induction es as [|e es IH]; intros d Hnd; simpl.
  - now rewrite app_nil_r.
  - rewrite extract_step_pairs. unfold version_eq_pairs in *. simpl in *.
    destruct (lookup String.eqb "version_eq" (attrib e)) as [v|].
    + destruct (lookup opt_string_eqb (text e) d) as [old|] eqn:Hl.
      * exfalso. assert (Hin : In (text e) (map fst d)).
        { assert (Hdec : forall x y : option string, {x = y} + {x <> y})
            by (decide equality; apply string_dec).
          destruct (in_dec Hdec (text e) (map fst d)) as [H|H]; [exact H|].
          apply lookup_opt_none in H. congruence. }
        rewrite map_app in Hnd. apply NoDup_remove_2 with (l := map fst d) (l' := map fst (flat_map _ es)) in Hnd.
        apply Hnd. apply in_or_app. now left.
      * rewrite IH; [rewrite <- app_assoc; reflexivity|]. rewrite <- app_assoc. exact Hnd.
    + rewrite IH; [reflexivity|exact Hnd].
Qed.

Lemma extract_elems_ok_nodup path es d d' :
  NoDup (map fst d) -> extract_elems path d es = Ok d' ->
  d' = d ++ version_eq_pairs es /\ NoDup (map fst d').
Proof.
  revert d; induction es as [|e es IH]; intros d Hnd He; simpl in He.
  - injection He as <-. rewrite app_nil_r. now split.
  - rewrite extract_step_pairs in He. unfold version_eq_pairs. simpl.
    destruct (lookup String.eqb "version_eq" (attrib e)) as [v|].
    + destruct (lookup opt_string_eqb (text e) d) as [old|] eqn:Hl; [discriminate|].
      apply IH in He as [-> Hnd'].
      * split; [now rewrite <- app_assoc|exact Hnd'].
      * rewrite map_app. simpl. apply NoDup_app; [exact Hnd | repeat constructor; auto |].
        intros x Hx [<-|[]]. apply lookup_opt_none in Hl. contradiction.
    + exact (IH d Hnd He).
Qed.

(** Extraction succeeds exactly when no two scanned elements carrying
    [version_eq] have the same text; it then returns their
    [(text, version_eq)] pairs in scan order (tags in [dependency_tags]
    order, then document order), whatever other attributes they carry. *)
Theorem extract_fixed_version_characterization path children :
  (NoDup (map fst (version_eq_pairs (scan_order children))) ->
   extract_fixed_version_depend_from_package_xml path children =
     Ok (version_eq_pairs (scan_order children))) /\
  (~ NoDup (map fst (version_eq_pairs (scan_order children))) ->
   exists msg, extract_fixed_version_depend_from_package_xml path children = Err msg).
Proof.
  unfold extract_fixed_version_depend_from_package_xml. split.
  - intros Hnd. exact (extract_elems_nodup path _ [] Hnd).
  - intros Hn. destruct (extract_elems path [] (scan_order children)) as [d'|msg] eqn:He.
    + exfalso. apply Hn. apply (extract_elems_ok_nodup path _ [] d' (NoDup_nil _)) in He as [-> H].
      exact H.
    + now exists msg.
Qed.

Lemma extract_fixed_version_characterization_witness :
  extract_fixed_version_depend_from_package_xml "package.xml"
    [mkElem "test_depend" (Some "gtest") [("version_lt", "2"); ("version_eq", "1.10")];
     mkElem "name" (Some "pkg") [("version_eq", "9")];
     mkElem "depend" (Some "foo") [("version_eq", "1.0")]] =
    Ok [(Some "foo", "1.0"); (Some "gtest", "1.10")] /\
  exists msg, extract_fixed_version_depend_from_package_xml "package.xml"
    [mkElem "depend" (Some "foo") [("version_eq", "1.0")];
     mkElem "test_depend" (Some "foo") [("version_eq", "1.0")]] = Err msg.
Proof.
  split.
  - etransitivity; [apply (proj1 (extract_fixed_version_characterization "package.xml" _))|].
    + vm_compute. repeat constructor; simpl; intuition discriminate.
    + vm_compute. reflexivity.
  - apply (proj2 (extract_fixed_version_characterization "package.xml" _)). vm_compute.
    intros H. inversion H as [|? ? Hn _]. apply Hn. now left.
Defined.

(** ** Merging the fixed versions *)

(** The versions given for key [k], in the order of [fixed]. *)
Definition versions_for (k : string) (fixed : list (option string * string)) : list string :=
  map snd (filter (fun kv => opt_string_eqb (fst kv) (Some k)) fixed).

Definition with_versions (vs : list string) (p : RosdepResolvedPackageInfo) :=
  mkInfo (ros_pkg_name p) (method p) (resolved_names p) (target_versions p ++ vs).

Lemma with_versions_nil p : with_versions [] p = p.
Proof. destruct p; unfold with_versions; simpl. now rewrite app_nil_r. Qed.

Lemma with_versions_app vs ws p :
  with_versions ws (with_versions vs p) = with_versions (vs ++ ws) p.
Proof. unfold with_versions; simpl. now rewrite app_assoc. Qed.

Lemma has_key_false_not_in {V} k (m : list (string * V)) kp :
  has_key k m = false -> In kp m -> String.eqb (fst kp) k = false.
Proof.
  unfold has_key. intros Hh Hin. destruct (String.eqb (fst kp) k) eqn:E; [|reflexivity].
  exfalso. assert (existsb (fun kv => String.eqb (fst kv) k) m = true)
    by (apply existsb_exists; eauto). congruence.
Qed.

Lemma merge_step_map m kv :
  merge_step m kv = map (fun kp => (fst kp, with_versions (versions_for (fst kp) [kv]) (snd kp))) m.
Proof.
  destruct kv as [[k|] v]; unfold merge_step, versions_for; simpl.
  - destruct (has_key k m) eqn:Hh.
    + unfold append_at. apply map_ext. intros [k0 p]. simpl.
      rewrite (String.eqb_sym k0 k). destruct (String.eqb k k0); simpl; [reflexivity|].
      now rewrite with_versions_nil.
    + rewrite <- (map_id m) at 1. apply map_ext_in. intros [k0 p] Hin.
      pose proof (has_key_false_not_in k m _ Hh Hin) as Hk. simpl in Hk.
      rewrite String.eqb_sym in Hk. unfold id; simpl. rewrite Hk. simpl. now rewrite with_versions_nil.
  - rewrite <- (map_id m) at 1. apply map_ext. intros [k0 p]. unfold id; simpl.
    now rewrite with_versions_nil.
Qed.

(** Merging appends to each entry, in the order of the fixed-version list,
    every version given for its key; pairs whose name is not a key, or
    whose name is [None], change nothing. *)
Theorem merge_fixed_map m fixed :
  merge_fixed m fixed =
    map (fun kp => (fst kp, with_versions (versions_for (fst kp) fixed) (snd kp))) m.
Proof.
  unfold merge_fixed. revert m; induction fixed as [|kv fixed IH]; intros m; simpl.
  - rewrite <- (map_id m) at 1. apply map_ext. intros [k p]. simpl.
    unfold versions_for. simpl. now rewrite with_versions_nil.
  - rewrite IH, merge_step_map, map_map. apply map_ext. intros [k p]. simpl.
    rewrite with_versions_app. f_equal. f_equal. unfold versions_for. simpl.
    destruct (opt_string_eqb (fst kv) (Some k)); reflexivity.
Qed.

Lemma versions_for_nodup k d :
  NoDup (map fst d) -> List.length (versions_for k d) <= 1.
Proof.
  unfold versions_for. rewrite length_map. induction d as [|[k0 v0] d IH]; simpl; intros Hnd; [lia|].
  inversion Hnd as [|? ? Hn Hnd']; subst.
  destruct (opt_string_eqb k0 (Some k)) eqn:E; [|exact (IH Hnd')].
  apply opt_string_eqb_eq in E. subst. simpl.
  destruct (filter (fun kv => opt_string_eqb (fst kv) (Some k)) d) as [|[k1 v1] r] eqn:Hf;
    simpl; [lia|].
  exfalso. assert (Hin : In (k1, v1) (filter (fun kv => opt_string_eqb (fst kv) (Some k)) d))
    by (rewrite Hf; now left).
  apply filter_In in Hin as [Hin Heq]. apply opt_string_eqb_eq in Heq. simpl in Heq. subst.
  apply Hn. now apply (in_map fst) in Hin.
Qed.

Lemma extract_nodup path children fixed :
  extract_fixed_version_depend_from_package_xml path children = Ok fixed ->
  NoDup (map fst fixed).
Proof.
  intros H. exact (proj2 (extract_elems_ok_nodup path _ [] fixed (NoDup_nil _) H)).
Qed.

Lemma merge_parsed_versions lines m0 path children fixed :
  parse_rosdep lines = Ok m0 ->
  extract_fixed_version_depend_from_package_xml path children = Ok fixed ->
  Forall (fun kp => target_versions (snd kp) = versions_for (fst kp) fixed /\
                    List.length (target_versions (snd kp)) <= 1) (merge_fixed m0 fixed).
Proof.
  intros Hp He. apply parse_rosdep_items in Hp. apply extract_nodup in He.
  rewrite merge_fixed_map. apply Forall_map. eapply Forall_impl; [|exact Hp].
  intros [k p] [_ [Htv _]]. simpl in *. unfold with_versions. simpl. rewrite Htv. simpl.
  split; [reflexivity|]. now apply versions_for_nodup.
Qed.

Lemma emit_outputs_no_fatal oa op m :
  Forall (fun kp => List.length (target_versions (snd kp)) <= 1) m ->
  fatal (emit_outputs oa op m) = None.
Proof.
  intros Hm. unfold emit_outputs, emit_file. rewrite !emit_file_acc_ok by exact Hm.
  destruct (String.eqb oa ""), (String.eqb op ""); reflexivity.
Qed.

(** After parsing and merging the versions read from one package.xml,
    each entry's target versions are exactly the versions given for its
    key, at most one since extraction refuses duplicates; so emission
    never raises the "Multiple target versions" error. *)
Theorem merge_parsed_single_version lines m0 path children fixed oa op :
  parse_rosdep lines = Ok m0 ->
  extract_fixed_version_depend_from_package_xml path children = Ok fixed ->
  Forall (fun kp => target_versions (snd kp) = versions_for (fst kp) fixed /\
                    List.length (target_versions (snd kp)) <= 1) (merge_fixed m0 fixed) /\
  fatal (emit_outputs oa op (merge_fixed m0 fixed)) = None.
Proof.
  intros Hp He. pose proof (merge_parsed_versions _ _ _ _ _ Hp He) as H. split; [exact H|].
  apply emit_outputs_no_fatal. eapply Forall_impl; [|exact H]. intros kp [_ Hl]. exact Hl.
Qed.

Lemma merge_parsed_single_version_witness :
  Forall (fun kp => target_versions (snd kp) = versions_for (fst kp) [(Some "foo", "1.0")] /\
                    List.length (target_versions (snd kp)) <= 1)
    (merge_fixed [("foo", mkInfo "foo" "apt" ["libfoo"] [])] [(Some "foo", "1.0")]) /\
  fatal (emit_outputs "apt.txt" "pip.txt"
           (merge_fixed [("foo", mkInfo "foo" "apt" ["libfoo"] [])] [(Some "foo", "1.0")])) = None.
Proof.
  apply (merge_parsed_single_version ["#ROSDEP[foo]"; "#apt"; "libfoo"] _ "package.xml"
           [mkElem "depend" (Some "foo") [("version_eq", "1.0")]]); vm_compute; reflexivity.
Defined.

(** ** [main] *)

(** Whenever [main] gets as far as the emission, the emission completes:
    the "Multiple target versions" error cannot be reached from [main]. *)
Theorem main_no_fatal run distro read opts out :
  main run distro read opts = Ok out -> fatal out = None.
Proof.
  unfold main.
  destruct (parse_dependency_types (dependency_types opts)) as [types|e]; [|discriminate].
  destruct (rosdep_key_and_resolve run distro (from_paths opts) types (contain_src opts))
    as [lines|e]; [|discriminate].
  destruct (parse_rosdep lines) as [m0|e] eqn:Hp; [|discriminate].
  destruct (String.eqb (fixed_package_xml opts) "").
  - intros H; injection H as <-. apply emit_outputs_no_fatal.
    eapply Forall_impl; [|exact (parse_rosdep_items _ _ Hp)].
    intros [k p] [_ [Htv _]]. simpl in *. rewrite Htv. simpl. lia.
  - destruct (read (fixed_package_xml opts)) as [children|e]; [|discriminate].
    destruct (extract_fixed_version_depend_from_package_xml (fixed_package_xml opts) children)
      as [fixed|e] eqn:He; [|discriminate].
    intros H; injection H as <-. apply emit_outputs_no_fatal.
    eapply Forall_impl; [|exact (merge_parsed_versions _ _ _ _ _ Hp He)].
    intros kp [_ Hl]. exact Hl.
Qed.

Definition example_read (path : string) : result (list element) :=
  Ok [mkElem "depend" (Some "foo") [("version_eq", "1.0")];
      mkElem "exec_depend" (Some "bar") [("version_eq", "2.0")]].

Definition example_options : options :=
  mkOptions "package.xml" "ws" "apt.txt" "pip.txt" false [].

Lemma main_no_fatal_witness :
  main example_run (Some "humble") example_read example_options =
    Ok (mkOutcome (Some ("libfoo1=1.0" ++ nl ++ "libfoo2=1.0" ++ nl)%string)
                  (Some ("pybar==2.0" ++ nl)%string) None) /\
  fatal (mkOutcome (Some ("libfoo1=1.0" ++ nl ++ "libfoo2=1.0" ++ nl)%string)
                   (Some ("pybar==2.0" ++ nl)%string) None) = None.
Proof.
  assert (H : main example_run (Some "humble") example_read example_options =
    Ok (mkOutcome (Some ("libfoo1=1.0" ++ nl ++ "libfoo2=1.0" ++ nl)%string)
                  (Some ("pybar==2.0" ++ nl)%string) None)) by (vm_compute; reflexivity).
  split; [exact H|]. exact (main_no_fatal _ _ _ _ _ H).
Defined.

(** ** The [--dependency-types] option *)

Lemma split_space_acc_no_space_eq cur s :
  no_space s = true -> split_space_acc cur s = [(cur ++ s)%string].
Proof.
  revert cur; induction s as [|c s IH]; intros cur Hs; simpl in *.
  - now rewrite string_app_nil_r.
  - apply andb_prop in Hs as [Hc Hs]. apply negb_true_iff in Hc. rewrite Hc.
    rewrite IH by exact Hs. now rewrite string_app_assoc.
Qed.

Lemma optparse_check_choices_ok vals l :
  optparse_check_choices vals = Ok l -> l = vals /\ Forall (fun v => In v dependency_type_choices) vals.
Proof.
  revert l; induction vals as [|v vs IH]; intros l H; cbn [optparse_check_choices] in H.
  - injection H as <-. auto.
  - destruct (existsb (String.eqb v) dependency_type_choices) eqn:Hc; [|discriminate].
    destruct (optparse_check_choices vs) as [l'|e]; [|discriminate].
    injection H as <-. destruct (IH l' eq_refl) as [-> Hf]. split; [reflexivity|].
    constructor; [|exact Hf].
    apply existsb_exists in Hc as [x [Hx Hv]]. apply String.eqb_eq in Hv. now subst.
Qed.

(** Once [optparse] has accepted the values of [--dependency-types], each
    is one of the choices, none of which contains a space, so the split
    [dep for s in ... for dep in s.split(" ")] returns the values unchanged. *)
Theorem parse_dependency_types_identity vals r :
  parse_dependency_types vals = Ok r ->
  r = vals /\ Forall (fun v => In v dependency_type_choices) vals.
Proof.
  unfold parse_dependency_types.
  destruct (optparse_check_choices vals) as [l|e] eqn:Hc; [|discriminate].
  intros H; injection H as <-. apply optparse_check_choices_ok in Hc as [-> Hf].
  split; [|exact Hf].
  induction Hf as [|v vs Hv Hf IH]; [reflexivity|]. simpl. rewrite IH.
  unfold split_space. rewrite split_space_acc_no_space_eq; [reflexivity|].
  repeat destruct Hv as [<-|Hv]; try reflexivity; contradiction.
Qed.

Lemma parse_dependency_types_identity_witness :
  parse_dependency_types ["build"; "test"] = Ok ["build"; "test"] /\
  ["build"; "test"] = ["build"; "test"] /\
  Forall (fun v => In v dependency_type_choices) ["build"; "test"].
Proof.
  assert (H : parse_dependency_types ["build"; "test"] = Ok ["build"; "test"]) by reflexivity.
  split; [exact H|]. exact (parse_dependency_types_identity _ _ H).
Defined.
